(** * ParsECS: the entity/component store, the query engine and the scheduler

    A shallow embedding of [src/parsecs.ts].  The [Map]s and the [Set] of the
    application, which nothing else holds, are modelled by their contents in
    insertion order.  Arrays that are written after somebody else got hold
    of them are modelled by address: the query tuples, which [queryIter]
    yields and then fills again, live in a heap that the queries thread
    through; the two arrays of systems, which [run] iterates while systems
    may change them, live in a heap inside the application. *)

From Stdlib Require Import String ZArith Lia Bool Arith List Sorted Permutation.
Import ListNotations.

Set Implicit Arguments.

(** ** Keys

    [Map] and [Set] compare keys with SameValueZero.  On strings and on the
    integer-valued numbers used as entity ids this is plain equality. *)

Class SameValueZero (K : Type) := {
  same : K -> K -> bool;
  same_spec : forall x y, same x y = true <-> x = y
}.

#[export] Instance same_string : SameValueZero string :=
  {| same := String.eqb; same_spec := String.eqb_eq |}.

#[export] Instance same_number : SameValueZero Z :=
  {| same := Z.eqb; same_spec := Z.eqb_eq |}.

(** ** Numbers

    [Entity = number]: ids are IEEE-754 doubles.  The counter [nextId] starts
    at 0 and only ever goes through [nextId++], so it holds an integer between
    0 and 2^53.  Below 2^53 the increment is exact; at 2^53 the sum 2^53 + 1 is
    not representable and rounds (ties to even) back to 2^53. *)

Definition Entity := Z.

Definition MAX_EXACT : Z := 2 ^ 53.

Definition number_succ (n : Z) : Z :=
  if (n <? MAX_EXACT)%Z then (n + 1)%Z else n.

(** ** [Map<K, V>]: entries in insertion order, keys pairwise distinct *)

Module JsMap.

Definition t (K V : Type) := list (K * V).

Section Ops.
Context {K V : Type} `{SameValueZero K}.

Definition empty : t K V := [].

Fixpoint get (k : K) (m : t K V) : option V :=
  match m with
  | [] => None
  | (k', v) :: r => if same k k' then Some v else get k r
  end.

Fixpoint has (k : K) (m : t K V) : bool :=
  match m with
  | [] => false
  | (k', _) :: r => if same k k' then true else has k r
  end.

(** [m.set(k, v)]: an existing key keeps its place, a new key goes last. *)
Fixpoint set (k : K) (v : V) (m : t K V) : t K V :=
  match m with
  | [] => [(k, v)]
  | (k', v') :: r => if same k k' then (k', v) :: r else (k', v') :: set k v r
  end.

(** [m.delete(k)]: keys are distinct, so at most one entry goes. *)
Definition delete (k : K) (m : t K V) : t K V :=
  filter (fun kv => negb (same k (fst kv))) m.

Definition keys (m : t K V) : list K := map fst m.

(** The value stored under [k] is itself an object (an inner [Map]) that a
    method call changes in place; the entry keeps its position. *)
Fixpoint mutate (k : K) (f : V -> V) (m : t K V) : t K V :=
  match m with
  | [] => []
  | (k', v) :: r => if same k k' then (k', f v) :: r else (k', v) :: mutate k f r
  end.

Definition ok (m : t K V) : Prop := NoDup (keys m).

End Ops.
End JsMap.

(** ** [Set<T>]: members in insertion order *)

Module JsSet.
Section Ops.
Context {T : Type} `{SameValueZero T}.

Definition t := list T.

Definition has (x : T) (s : list T) : bool := existsb (same x) s.

Definition add (x : T) (s : list T) : list T :=
  if has x s then s else s ++ [x].

Definition delete (x : T) (s : list T) : list T :=
  filter (fun y => negb (same x y)) s.

End Ops.
End JsSet.

(** ** Components, tuple slots and the heap of tuple arrays *)

Section Parsecs.
Context {Payload Resources : Type}.

(** [Component<Name, T> = T & { type: Name }] *)
Record Component := { type : string; props : Payload }.

(** What a slot of a query tuple ([any[]]) can hold. *)
Inductive Value :=
| VHole
| VUndefined
| VComponent (c : Component)
| VEntity (e : Entity).

Definition of_lookup (o : option Component) : Value :=
  match o with
  | Some c => VComponent c
  | None => VUndefined
  end.

(** [new Array(n)] *)
Definition new_Array (n : nat) : list Value := repeat VHole n.

(** [a[i] = v]; an index past the end extends the array with holes. *)
Fixpoint array_set (i : nat) (v : Value) (a : list Value) : list Value :=
  match i, a with
  | O, [] => [v]
  | O, _ :: r => v :: r
  | S i', [] => VHole :: array_set i' v []
  | S i', x :: r => x :: array_set i' v r
  end.

Definition Addr := nat.
Definition Heap := list (list Value).

Definition alloc (a : list Value) (h : Heap) : Addr * Heap :=
  (length h, h ++ [a]).

Definition read (h : Heap) (p : Addr) : list Value := nth p h [].

Fixpoint write (p : Addr) (i : nat) (v : Value) (h : Heap) : Heap :=
  match p, h with
  | _, [] => []
  | O, a :: r => array_set i v a :: r
  | S p', a :: r => a :: write p' i v r
  end.

(** ** The application *)

(** A registered system is a function object; [removeSystem] compares them
    with [===], so the registry holds their identities. *)
Definition SystemRef := nat.

(** The two lists of systems are array objects: [addSystem],
    [addStartupSystem] and [removeSystem] change them in place,
    [clearSystems] puts new arrays into the fields, and [run] goes on with
    the array it called [forEach] on.  So the fields [startupSystems] and
    [systems] hold addresses into [arrays], the arrays of systems made so
    far. *)
Record App := {
  entities : list Entity;
  components : JsMap.t string (JsMap.t Entity Component);
  arrays : list (list SystemRef);
  startupSystems : Addr;
  systems : Addr;
  nextId : Z;
  resources : Resources;
  running : bool
}.

Definition createApp (r : Resources) : App :=
  {| entities := [];
     components := JsMap.empty;
     arrays := [[]; []];
     startupSystems := 0;
     systems := 1;
     nextId := 0%Z;
     resources := r;
     running := false |}.

(** What [this.systems] and [this.startupSystems] hold at the moment. *)
Definition systems_now (app : App) : list SystemRef :=
  nth (systems app) (arrays app) [].

Definition startupSystems_now (app : App) : list SystemRef :=
  nth (startupSystems app) (arrays app) [].

Definition with_components (cs : JsMap.t string (JsMap.t Entity Component))
  (app : App) : App :=
  {| entities := entities app;
     components := cs;
     arrays := arrays app;
     startupSystems := startupSystems app;
     systems := systems app;
     nextId := nextId app;
     resources := resources app;
     running := running app |}.

Definition with_entities (es : list Entity) (app : App) : App :=
  {| entities := es;
     components := components app;
     arrays := arrays app;
     startupSystems := startupSystems app;
     systems := systems app;
     nextId := nextId app;
     resources := resources app;
     running := running app |}.

Definition with_nextId (n : Z) (app : App) : App :=
  {| entities := entities app;
     components := components app;
     arrays := arrays app;
     startupSystems := startupSystems app;
     systems := systems app;
     nextId := n;
     resources := resources app;
     running := running app |}.

Definition with_arrays (ars : list (list SystemRef)) (app : App) : App :=
  {| entities := entities app;
     components := components app;
     arrays := ars;
     startupSystems := startupSystems app;
     systems := systems app;
     nextId := nextId app;
     resources := resources app;
     running := running app |}.

Definition with_running (b : bool) (app : App) : App :=
  {| entities := entities app;
     components := components app;
     arrays := arrays app;
     startupSystems := startupSystems app;
     systems := systems app;
     nextId := nextId app;
     resources := resources app;
     running := b |}.

(** *** Component store *)

(** [if (!this.components.has(type)) this.components.set(type, new Map())] *)
Definition ensure_submap (type : string)
  (cs : JsMap.t string (JsMap.t Entity Component))
  : JsMap.t string (JsMap.t Entity Component) :=
  if negb (JsMap.has type cs) then JsMap.set type JsMap.empty cs else cs.

Definition addComponent (entity : Entity) (component : Component) (app : App)
  : App :=
  let type := type component in
  let cs := ensure_submap type (components app) in
  match JsMap.get type cs with
  | Some _ => with_components (JsMap.mutate type (JsMap.set entity component) cs) app
  | None => with_components cs app
  end.

Definition addEntity (comps : list Component) (app : App) : Entity * App :=
  let id := nextId app in
  let app1 := with_nextId (number_succ id) app in
  let app2 := with_entities (JsSet.add id (entities app1)) app1 in
  (id, fold_left (fun a comp => addComponent id comp a) comps app2).

Definition removeComponent (entity : Entity) (componentType : string)
  (app : App) : App :=
  match JsMap.get componentType (components app) with
  | Some _ =>
      with_components
        (JsMap.mutate componentType (JsMap.delete entity) (components app)) app
  | None => app
  end.

Definition removeEntity (entity : Entity) (app : App) : App :=
  let app1 :=
    fold_left
      (fun a type =>
         match JsMap.get type (components a) with
         | Some _ =>
             with_components
               (JsMap.mutate type (JsMap.delete entity) (components a)) a
         | None => a
         end)
      (JsMap.keys (components app)) app in
  with_entities (JsSet.delete entity (entities app1)) app1.

(** [undefined] is [None]; the optional chain gives [undefined] when the type
    has no sub-map. *)
Definition getComponent (app : App) (id : Entity) (type : string)
  : option Component :=
  match JsMap.get type (components app) with
  | Some m => JsMap.get id m
  | None => None
  end.

Definition hasComponent (app : App) (id : Entity) (type : string) : bool :=
  match JsMap.get type (components app) with
  | Some m => JsMap.has id m
  | None => false
  end.

Definition getEntities (app : App) : list Entity := entities app.

Definition clearEntities (app : App) : App :=
  with_components JsMap.empty (with_entities [] app).

(** *** Query engine *)

(** [this.getComponent(entity, types[i])]; past the end [types[i]] is
    [undefined], which is no key of the store. *)
Definition getComponent_at (app : App) (entity : Entity) (types : list string)
  (i : nat) : option Component :=
  match nth_error types i with
  | Some t => getComponent app entity t
  | None => None
  end.

Definition storeQueryTuple (app : App) (types : list string) (entity : Entity)
  (tuple : Addr) (h : Heap) : Heap :=
  let h0 := write tuple 0 (of_lookup (getComponent_at app entity types 0)) h in
  let h1 :=
    fold_left
      (fun hp i => write tuple i (of_lookup (getComponent_at app entity types i)) hp)
      (seq 1 (length types - 1)) h0 in
  write tuple (length types) (VEntity entity) h1.

Definition checkRemainingComponents (app : App) (entity : Entity)
  (types : list string) : bool :=
  forallb
    (fun i =>
       match nth_error types i with
       | Some t => hasComponent app entity t
       | None => false
       end)
    (seq 1 (length types - 1)).

(** [query(types)] with [types : readonly [H, ...T]], here [t0 :: ts].  The
    result array holds the addresses of the tuples it allocated. *)
Definition query (app : App) (t0 : string) (ts : list string) (h : Heap)
  : list Addr * Heap :=
  let types := t0 :: ts in
  match JsMap.get t0 (components app) with
  | None => ([], h)
  | Some m =>
      fold_left
        (fun (acc : list Addr * Heap) entity =>
           let (tuples, hp) := acc in
           if checkRemainingComponents app entity types then
             let (tuple, h1) := alloc (new_Array (length types + 1)) hp in
             (tuples ++ [tuple], storeQueryTuple app types entity tuple h1)
           else acc)
        (JsMap.keys m) ([], h)
  end.

(** [queryIter(types)], for a store that is not changed while the generator
    runs.  [yield] is the consumer: it is handed the address the generator
    yields and the heap as it is at that moment, and folds what it makes of
    them into its own accumulator before the generator resumes. *)
Definition queryIter {A : Type} (yield : Addr -> Heap -> A -> A) (app : App)
  (t0 : string) (ts : list string) (h : Heap) (init : A) : A * Heap :=
  let types := t0 :: ts in
  let (tuple, h0) := alloc (new_Array (length types + 1)) h in
  match JsMap.get t0 (components app) with
  | None => (init, h0)
  | Some m =>
      fold_left
        (fun (acc : A * Heap) entity =>
           let (a, hp) := acc in
           if checkRemainingComponents app entity types then
             let h1 := storeQueryTuple app types entity tuple hp in
             (yield tuple h1 a, h1)
           else acc)
        (JsMap.keys m) (init, h0)
  end.

(** [Array.from(app.queryIter(types))] / [[...app.queryIter(types)]]: the
    yielded values themselves are collected. *)
Definition Array_from_queryIter (app : App) (t0 : string) (ts : list string)
  (h : Heap) : list Addr * Heap :=
  queryIter (fun tuple _ out => out ++ [tuple]) app t0 ts h [].


(** What an array of tuples looks like to a reader (deep equality). *)
Definition contents (h : Heap) (tuples : list Addr) : list (list Value) :=
  map (read h) tuples.

(** Vocabulary for the statements about queries: the keys of the anchor
    sub-map in iteration order, the entities the loop of [query] and
    [queryIter] lets through, and a tuple holding what [getComponent] returns
    for each listed type followed by the id. *)
Definition anchor_keys (app : App) (t0 : string) : list Entity :=
  match JsMap.get t0 (components app) with
  | Some m => JsMap.keys m
  | None => []
  end.

Definition matching (app : App) (t0 : string) (ts : list string)
  : list Entity :=
  filter (fun e => checkRemainingComponents app e (t0 :: ts))
    (anchor_keys app t0).

Definition tuple_of (app : App) (types : list string) (e : Entity)
  : list Value :=
  map (fun t => of_lookup (getComponent app e t)) types ++ [VEntity e].

(** *** [cacheQuery]: the closure variable [cache] and the captured list *)

Record QueryCache := {
  cached_types : string * list string;
  cache : option (list Addr)
}.

Definition cacheQuery (t0 : string) (ts : list string) : QueryCache :=
  {| cached_types := (t0, ts); cache := None |}.

Definition invalidate (qc : QueryCache) : QueryCache :=
  {| cached_types := cached_types qc; cache := None |}.

Definition get (qc : QueryCache) (app : App) (h : Heap)
  : list Addr * QueryCache * Heap :=
  match cache qc with
  | None =>
      let (r, h') := query app (fst (cached_types qc)) (snd (cached_types qc)) h in
      (r, {| cached_types := cached_types qc; cache := Some r |}, h')
  | Some r => (r, qc, h)
  end.

(** *** Systems *)

Definition System := App -> App.

Fixpoint combine_from (systems : list System) (n i : nat) (app : App) : App :=
  match n with
  | O => app
  | S n' =>
      match nth_error systems i with
      | Some s => combine_from systems n' (S i) (s app)
      | None => app
      end
  end.

(** The rest parameter [systems] is a fresh array only the closure holds. *)
Definition combineSystems (systems : list System) : System :=
  fun app => combine_from systems (length systems) 0 app.

(** A method call on the array at address [p]. *)
Fixpoint array_update (p : Addr) (f : list SystemRef -> list SystemRef)
  (ars : list (list SystemRef)) : list (list SystemRef) :=
  match p, ars with
  | _, [] => []
  | O, a :: r => f a :: r
  | S p', a :: r => a :: array_update p' f r
  end.

Definition addSystem (system : SystemRef) (app : App) : App :=
  with_arrays
    (array_update (systems app) (fun a => a ++ [system]) (arrays app)) app.

Definition addStartupSystem (system : SystemRef) (app : App) : App :=
  with_arrays
    (array_update (startupSystems app) (fun a => a ++ [system]) (arrays app))
    app.

(** The loop with [splice(i, 1); break]. *)
Fixpoint splice_first (system : SystemRef) (l : list SystemRef)
  : list SystemRef :=
  match l with
  | [] => []
  | s :: r => if Nat.eqb s system then r else s :: splice_first system r
  end.

Definition removeSystem (system : SystemRef) (startup : bool) (app : App)
  : App :=
  let systems := if startup then startupSystems app else systems app in
  with_arrays (array_update systems (splice_first system) (arrays app)) app.

(** [this.systems = []; this.startupSystems = [];] *)
Definition clearSystems (app : App) : App :=
  {| entities := entities app;
     components := components app;
     arrays := arrays app ++ [[]; []];
     startupSystems := length (arrays app) + 1;
     systems := length (arrays app);
     nextId := nextId app;
     resources := resources app;
     running := running app |}.

Definition clear (app : App) : App := clearSystems (clearEntities app).

Definition stop (app : App) : App := with_running false app.

(** *** Scheduler

    [sem s] is what calling the function object [s] on the application does.
    Systems are taken to return. *)

Section Scheduler.
Variable sem : SystemRef -> System.

(** [step()] from index [i].  [this.systems] is read again on every turn, so
    the loop follows whatever the systems do to the list; [fuel] bounds the
    number of turns, [None] is "not finished within the bound".  The second
    component lists the systems the loop called, in call order. *)
Fixpoint step_from (fuel i : nat) (app : App)
  : option (list SystemRef * App) :=
  match fuel with
  | O => None
  | S fuel' =>
      match nth_error (systems_now app) i with
      | None => Some ([], app)
      | Some s =>
          match step_from fuel' (S i) (sem s app) with
          | Some (called, app') => Some (s :: called, app')
          | None => None
          end
      end
  end.

Definition step (fuel : nat) (app : App) : option (list SystemRef * App) :=
  step_from fuel 0 app.

(** [forEach] on the array at [arr]: the length is taken once, the array is
    looked at again on every turn, and an index it no longer has is
    skipped. *)
Fixpoint forEach_from (n k : nat) (arr : Addr) (app : App)
  : list SystemRef * App :=
  match n with
  | O => ([], app)
  | S n' =>
      match nth_error (nth arr (arrays app) []) k with
      | Some s =>
          let (called, app') := forEach_from n' (S k) arr (sem s app) in
          (s :: called, app')
      | None => forEach_from n' (S k) arr app
      end
  end.

(** [loop]: the flag says whether [requestAnimationFrame(this.loop)] ran. *)
Definition loop (fuel : nat) (app : App)
  : option (list SystemRef * App * bool) :=
  if running app then
    match step fuel app with
    | Some (called, app') => Some (called, app', true)
    | None => None
    end
  else Some ([], app, false).

Definition run (fuel : nat) (app : App)
  : option (list SystemRef * App * bool) :=
  let app1 := with_running true app in
  let arr := startupSystems app1 in
  let (called1, app2) :=
    forEach_from (length (nth arr (arrays app1) [])) 0 arr app1 in
  match loop fuel app2 with
  | Some (called2, app3, raf) => Some (called1 ++ called2, app3, raf)
  | None => None
  end.

(** [n] calls of [step()] in a row. *)
Fixpoint steps (fuel n : nat) (app : App) : option (list SystemRef * App) :=
  match n with
  | O => Some ([], app)
  | S n' =>
      match step fuel app with
      | Some (called, app') =>
          match steps fuel n' app' with
          | Some (called', app'') => Some (called ++ called', app'')
          | None => None
          end
      | None => None
      end
  end.

(** A system that leaves both lists of systems as it found them: the fields
    hold the same arrays, and the arrays hold the same systems. *)
Definition keeps_registry (s : SystemRef) : Prop :=
  forall a,
    systems (sem s a) = systems a /\
    startupSystems (sem s a) = startupSystems a /\
    systems_now (sem s a) = systems_now a /\
    startupSystems_now (sem s a) = startupSystems_now a.

End Scheduler.

(** *** Sequences of calls on the store

    Client code, systems included, reaches the private fields only through
    the public methods, so every history of the store is a sequence of these
    calls. *)

Inductive Call :=
| CallAddEntity (comps : list Component)
| CallAddComponent (entity : Entity) (component : Component)
| CallRemoveComponent (entity : Entity) (componentType : string)
| CallRemoveEntity (entity : Entity)
| CallClearEntities
| CallClearSystems
| CallClear
| CallAddSystem (system : SystemRef)
| CallAddStartupSystem (system : SystemRef)
| CallRemoveSystem (system : SystemRef) (startup : bool)
| CallSetRunning (b : bool).

(** The state after a call, and the id it handed out, if any. *)
Definition exec (c : Call) (app : App) : App * list Entity :=
  match c with
  | CallAddEntity comps => let (id, app') := addEntity comps app in (app', [id])
  | CallAddComponent e c => (addComponent e c app, [])
  | CallRemoveComponent e t => (removeComponent e t app, [])
  | CallRemoveEntity e => (removeEntity e app, [])
  | CallClearEntities => (clearEntities app, [])
  | CallClearSystems => (clearSystems app, [])
  | CallClear => (clear app, [])
  | CallAddSystem s => (addSystem s app, [])
  | CallAddStartupSystem s => (addStartupSystem s app, [])
  | CallRemoveSystem s b => (removeSystem s b app, [])
  | CallSetRunning b => (with_running b app, [])
  end.

Fixpoint exec_all (cs : list Call) (app : App) : App * list Entity :=
  match cs with
  | [] => (app, [])
  | c :: r =>
      let (app1, ids1) := exec c app in
      let (app2, ids2) := exec_all r app1 in
      (app2, ids1 ++ ids2)
  end.

Definition reachable (app : App) : Prop :=
  exists r cs, fst (exec_all cs (createApp r)) = app.

(** *** Invariant of the store

    Keys of every [Map] are distinct, and a component sits in the sub-map of
    its own type tag. *)

Definition submap_ok (tm : string * JsMap.t Entity Component) : Prop :=
  JsMap.ok (snd tm) /\
  forall e c, In (e, c) (snd tm) -> type c = fst tm.

Definition store_ok (app : App) : Prop :=
  JsMap.ok (components app) /\ Forall submap_ok (components app).

End Parsecs.

(** ** Example stores

    Payloads are numbers, there are no resources. *)

Definition comp (t : string) (n : Z) : @Component Z :=
  {| type := t; props := n |}.

(** A = 0 with body and shape, B = 1 with body, movement and shape, C = 2
    with shape. *)
Definition world : @App Z unit :=
  fst (exec_all
         [CallAddEntity [comp "body" 1; comp "shape" 2];
          CallAddEntity [comp "body" 3; comp "movement" 4; comp "shape" 5];
          CallAddEntity [comp "shape" 6]]
         (createApp tt)).

(** A component attached to an id that [addEntity] never handed out. *)
Definition stray : @App Z unit :=
  addComponent 7%Z (comp "a" 1) (createApp tt).

(** Two per-step systems, 0 and 1; system 0 takes itself off the list
    when it runs ([app => app.removeSystem(self)]), system 1 does nothing. *)
Definition two_systems : @App Z unit :=
  addSystem 1 (addSystem 0 (createApp tt)).

Definition leaving (s : SystemRef) : @System Z unit :=
  if Nat.eqb s 0 then removeSystem 0 false else fun app => app.

(** Systems that only touch the store: 0 adds an entity, the others do
    nothing. *)
Definition spawning (s : SystemRef) : @System Z unit :=
  if Nat.eqb s 0 then fun app => snd (addEntity [comp "body" 1] app)
  else fun app => app.

Definition scheduled : @App Z unit :=
  addSystem 2 (addSystem 1 (addStartupSystem 0 (createApp tt))).

(** The store after 2^53 calls of [addEntity()] and one of
    [clearEntities()]. *)
Definition saturated : @App Z unit := with_nextId MAX_EXACT (createApp tt).

(** ** Further vocabulary and the component constructors *)

Section MoreDefinitions.
Context {Payload Resources : Type}.

(** The two fields hold two different arrays that exist. *)
Definition registry_ok (app : @App Payload Resources) : Prop :=
  systems app < length (arrays app) /\
  startupSystems app < length (arrays app) /\
  systems app <> startupSystems app.

(** The entity a query tuple was built for: its last slot. *)
Definition tuple_entity (tuple : list (@Value Payload)) : option Entity :=
  match last tuple VHole with
  | VEntity e => Some e
  | _ => None
  end.

End MoreDefinitions.

(** [createComponent] and [componentMaker] build the object literal
    [{ type: name, ...props }].  An object is modelled by its own string-keyed
    properties; a property value is the tag string or any other value.  The
    spread copies the properties of [props] one by one onto the object that
    already has [type]. *)

Section Objects.
Context {V : Type}.

Definition Obj := JsMap.t string (string + V).

Definition spread (props : Obj) (o : Obj) : Obj :=
  fold_left (fun acc kv => JsMap.set (fst kv) (snd kv) acc) props o.

Definition createComponent (name : string) (props : Obj) : Obj :=
  spread props [("type"%string, inl name)].

Definition componentMaker (name : string) : Obj -> Obj :=
  fun props => spread props [("type"%string, inl name)].

End Objects.

(** ** More example systems and applications *)



(** System 1 calls [app.clearSystems()]. *)
Definition clearing (s : SystemRef) : @System Z unit :=
  if Nat.eqb s 1 then clearSystems else fun app => app.

(** System 0 calls [app.stop()]. *)
Definition stopping (s : SystemRef) : @System Z unit :=
  if Nat.eqb s 0 then stop else fun app => app.


Definition three_systems : @App Z unit :=
  addSystem 2 (addSystem 1 (addSystem 0 (createApp tt))).

Definition three_startup_systems : @App Z unit :=
  addSystem 5
    (addStartupSystem 2 (addStartupSystem 1 (addStartupSystem 0 (createApp tt)))).

Definition running_two : @App Z unit := with_running true two_systems.

(** [{ mass: 5, type: 'other' }] *)
Definition props_with_type : @Obj Z :=
  [("mass"%string, inr 5%Z); ("type"%string, inl "other"%string)].

(** * Facts about the containers *)

Section KeyFacts.
Context {K : Type} `{SameValueZero K}.

Lemma same_refl (k : K) : same k k = true.
Proof. now apply same_spec. Qed.

Lemma same_false (k k' : K) : same k k' = false <-> k <> k'.
Proof.
  split.
  - intros E Heq. apply same_spec in Heq. congruence.
  - intros Hne. destruct (same k k') eqn:E; [|reflexivity].
    apply same_spec in E. contradiction.
Qed.

Lemma same_sym (k k' : K) : same k k' = same k' k.
Proof.
  destruct (same k k') eqn:E.
  - apply same_spec in E. subst. symmetry. apply same_refl.
  - symmetry. apply same_false. apply same_false in E. congruence.
Qed.

End KeyFacts.

Ltac case_same a b :=
  let E := fresh "E" in
  destruct (same a b) eqn:E;
  [ apply same_spec in E; try subst | pose proof E as ?; apply same_false in E ].

Create HintDb jsmap.

Section MapFacts.
Context {K V : Type} `{SameValueZero K}.
Implicit Types (m : JsMap.t K V) (k : K) (v : V).

Lemma map_has_get k m :
  JsMap.has k m = match JsMap.get k m with Some _ => true | None => false end.
Proof.
  induction m as [|[k' v'] r IH]; simpl; [reflexivity|].
  destruct (same k k'); auto.
Qed.

Lemma map_has_true k m :
  JsMap.has k m = true <-> exists v, JsMap.get k m = Some v.
Proof.
  rewrite map_has_get. destruct (JsMap.get k m) as [v|].
  - split; eauto.
  - split; [discriminate | intros [v Hv]; discriminate].
Qed.

Lemma map_has_keys k m : JsMap.has k m = true <-> In k (JsMap.keys m).
Proof.
  induction m as [|[k' v'] r IH]; simpl.
  - split; [discriminate | tauto].
  - case_same k k'.
    + split; auto.
    + rewrite IH. split; [auto | intros [Heq | Hin]; congruence].
Qed.

Lemma map_get_In k v m : JsMap.get k m = Some v -> In (k, v) m.
Proof.
  induction m as [|[k' v'] r IH]; simpl; [discriminate|].
  case_same k k'.
  - intros [= ->]. now left.
  - intros Hg. right. auto.
Qed.

Lemma map_In_get k v m : JsMap.ok m -> In (k, v) m -> JsMap.get k m = Some v.
Proof.
  unfold JsMap.ok.
  induction m as [|[k' v'] r IH]; simpl; [tauto|].
  intros Hnd [Heq | Hin].
  - inversion Heq; subst. now rewrite same_refl.
  - inversion Hnd as [|? ? Hnotin Hnd']; subst.
    case_same k k'.
    + exfalso. apply Hnotin. apply in_map_iff. now exists (k', v).
    + auto.
Qed.

Lemma map_get_set_same k v m : JsMap.get k (JsMap.set k v m) = Some v.
Proof.
  induction m as [|[k' v'] r IH]; simpl.
  - now rewrite same_refl.
  - case_same k k'; simpl.
    + now rewrite same_refl.
    + now rewrite H0.
Qed.

Lemma map_get_set_other k k' v m :
  k' <> k -> JsMap.get k' (JsMap.set k v m) = JsMap.get k' m.
Proof.
  intros Hne. induction m as [|[k0 v0] r IH]; simpl.
  - apply same_false in Hne. now rewrite Hne.
  - case_same k k0; simpl.
    + apply same_false in Hne. now rewrite Hne.
    + now rewrite IH.
Qed.

Lemma map_keys_set k v m :
  JsMap.keys (JsMap.set k v m) =
  if JsMap.has k m then JsMap.keys m else JsMap.keys m ++ [k].
Proof.
  induction m as [|[k' v'] r IH]; simpl; [reflexivity|].
  case_same k k'; simpl; [reflexivity|].
  fold (JsMap.keys (JsMap.set k v r)). rewrite IH.
  now destruct (JsMap.has k r).
Qed.

Lemma map_set_ok k v m : JsMap.ok m -> JsMap.ok (JsMap.set k v m).
Proof.
  unfold JsMap.ok. intros Hnd. rewrite map_keys_set.
  destruct (JsMap.has k m) eqn:Hh; [assumption|].
  apply NoDup_app; [assumption | repeat constructor; simpl; tauto |].
  intros x Hx [<- | []].
  apply map_has_keys in Hx. congruence.
Qed.

Lemma map_In_set k v m e w :
  In (e, w) (JsMap.set k v m) -> (e = k /\ w = v) \/ In (e, w) m.
Proof.
  induction m as [|[k' v'] r IH]; simpl.
  - intros [[= <- <-] | []]. now left.
  - case_same k k'; simpl.
    + intros [[= <- <-] | Hin]; auto.
    + intros [Heq | Hin]; auto. destruct (IH Hin); auto.
Qed.

Lemma map_get_delete_same k m : JsMap.get k (JsMap.delete k m) = None.
Proof.
  unfold JsMap.delete.
  induction m as [|[k' v'] r IH]; simpl; [reflexivity|].
  destruct (same k k') eqn:E; simpl; [assumption|].
  now rewrite E.
Qed.

Lemma map_get_delete_other k k' m :
  k' <> k -> JsMap.get k' (JsMap.delete k m) = JsMap.get k' m.
Proof.
  intros Hne. unfold JsMap.delete.
  induction m as [|[k0 v0] r IH]; simpl; [reflexivity|].
  case_same k k0; simpl.
  - apply same_false in Hne. now rewrite Hne.
  - now rewrite IH.
Qed.

Lemma map_delete_absent k m : JsMap.has k m = false -> JsMap.delete k m = m.
Proof.
  unfold JsMap.delete.
  induction m as [|[k' v'] r IH]; simpl; [reflexivity|].
  destruct (same k k'); simpl; [discriminate|].
  intros Hh. now rewrite IH.
Qed.

Lemma map_delete_incl k m e w : In (e, w) (JsMap.delete k m) -> In (e, w) m.
Proof. unfold JsMap.delete. intros Hin. now apply filter_In in Hin. Qed.

Lemma map_delete_ok k m : JsMap.ok m -> JsMap.ok (JsMap.delete k m).
Proof.
  unfold JsMap.ok, JsMap.delete, JsMap.keys.
  induction m as [|[k' v'] r IH]; simpl; [auto|].
  intros Hnd. inversion Hnd as [|? ? Hnotin Hnd']; subst.
  destruct (same k k'); simpl; auto.
  constructor; auto.
  intros Hin. apply Hnotin.
  apply in_map_iff in Hin as [[e w] [Hfst Hin]].
  apply filter_In in Hin as [Hin _].
  apply in_map_iff. now exists (e, w).
Qed.

End MapFacts.

Section MutateFacts.
Context {K V : Type} `{SameValueZero K}.
Implicit Types (m : JsMap.t K V) (k : K) (f : V -> V).

Lemma map_keys_mutate k f m : JsMap.keys (JsMap.mutate k f m) = JsMap.keys m.
Proof.
  induction m as [|[k' v'] r IH]; simpl; [reflexivity|].
  destruct (same k k'); simpl; [reflexivity|].
  fold (JsMap.keys (JsMap.mutate k f r)). now rewrite IH.
Qed.

Lemma map_get_mutate_same k f m :
  JsMap.get k (JsMap.mutate k f m) = option_map f (JsMap.get k m).
Proof.
  induction m as [|[k' v'] r IH]; simpl; [reflexivity|].
  destruct (same k k') eqn:E; simpl; now rewrite E.
Qed.

Lemma map_get_mutate_other k k' f m :
  k' <> k -> JsMap.get k' (JsMap.mutate k f m) = JsMap.get k' m.
Proof.
  intros Hne. induction m as [|[k0 v0] r IH]; simpl; [reflexivity|].
  case_same k k0; simpl.
  - apply same_false in Hne. now rewrite Hne.
  - now rewrite IH.
Qed.

Lemma map_mutate_id k f m :
  (forall v, JsMap.get k m = Some v -> f v = v) -> JsMap.mutate k f m = m.
Proof.
  induction m as [|[k' v'] r IH]; simpl; [reflexivity|].
  destruct (same k k') eqn:E; intros Hf.
  - now rewrite Hf.
  - now rewrite IH.
Qed.

Lemma map_mutate_ok k f m : JsMap.ok m -> JsMap.ok (JsMap.mutate k f m).
Proof. unfold JsMap.ok. now rewrite map_keys_mutate. Qed.

Lemma map_mutate_Forall (P : K * V -> Prop) k f m :
  (forall v, P (k, v) -> P (k, f v)) ->
  Forall P m -> Forall P (JsMap.mutate k f m).
Proof.
  intros Hf. induction m as [|[k' v'] r IH]; simpl; [auto|].
  intros HF. inversion HF; subst.
  case_same k k'; constructor; auto.
Qed.

End MutateFacts.

#[export] Hint Resolve map_set_ok map_delete_ok map_mutate_ok : jsmap.

(** * Facts about the component store *)

Section StoreFacts.
Context {Payload Resources : Type}.
Implicit Types (app : @App Payload Resources) (e : Entity).
Implicit Types (c : @Component Payload) (T : string).
Implicit Types (cs : JsMap.t string (JsMap.t Entity (@Component Payload))).

Lemma ensure_submap_get T cs :
  exists m, JsMap.get T (ensure_submap T cs) = Some m /\
            (JsMap.get T cs = None -> m = JsMap.empty) /\
            (forall m0, JsMap.get T cs = Some m0 -> m = m0).
Proof.
  unfold ensure_submap. destruct (JsMap.has T cs) eqn:Hh; simpl.
  - apply map_has_true in Hh as [m Hm]. exists m. rewrite Hm.
    repeat split; congruence.
  - exists JsMap.empty. rewrite map_get_set_same.
    rewrite map_has_get in Hh.
    destruct (JsMap.get T cs); [discriminate|].
    repeat split; congruence.
Qed.

Lemma ensure_submap_other T' cs T :
  T <> T' -> JsMap.get T (ensure_submap T' cs) = JsMap.get T cs.
Proof.
  intros Hne. unfold ensure_submap.
  destruct (JsMap.has T' cs); simpl; [reflexivity|].
  now apply map_get_set_other.
Qed.

Lemma components_addComponent app e c :
  components (addComponent e c app) =
  JsMap.mutate (type c) (JsMap.set e c)
    (ensure_submap (type c) (components app)).
Proof.
  unfold addComponent.
  destruct (ensure_submap_get (type c) (components app)) as [m [Hm _]].
  now rewrite Hm.
Qed.

Lemma fields_addComponent app e c :
  entities (addComponent e c app) = entities app /\
  nextId (addComponent e c app) = nextId app /\
  arrays (addComponent e c app) = arrays app /\
  systems (addComponent e c app) = systems app /\
  startupSystems (addComponent e c app) = startupSystems app /\
  running (addComponent e c app) = running app /\
  resources (addComponent e c app) = resources app.
Proof.
  unfold addComponent.
  destruct (JsMap.get _ _); simpl; repeat split; reflexivity.
Qed.

Lemma hasComponent_getComponent app e T :
  hasComponent app e T =
  match getComponent app e T with Some _ => true | None => false end.
Proof.
  unfold hasComponent, getComponent.
  destruct (JsMap.get T (components app)); [apply map_has_get | reflexivity].
Qed.

Lemma getComponent_addComponent_same app e c :
  getComponent (addComponent e c app) e (type c) = Some c.
Proof.
  unfold getComponent. rewrite components_addComponent.
  rewrite map_get_mutate_same.
  destruct (ensure_submap_get (type c) (components app)) as [m [Hm _]].
  rewrite Hm. simpl. apply map_get_set_same.
Qed.

Lemma getComponent_addComponent_other app e c e' T :
  e' <> e \/ T <> type c ->
  getComponent (addComponent e c app) e' T = getComponent app e' T.
Proof.
  intros Hne. unfold getComponent. rewrite components_addComponent.
  destruct (string_dec T (type c)) as [-> | HT].
  - destruct Hne as [He | HT]; [|congruence].
    rewrite map_get_mutate_same.
    destruct (ensure_submap_get (type c) (components app)) as [m [Hm [Hnone Hsome]]].
    rewrite Hm. simpl. rewrite map_get_set_other by assumption.
    destruct (JsMap.get (type c) (components app)) as [m0|].
    + now rewrite (Hsome m0 eq_refl).
    + now rewrite Hnone.
  - rewrite map_get_mutate_other by assumption.
    now rewrite ensure_submap_other.
Qed.

(** [removeComponent] and the body of the loop of [removeEntity] write the
    same thing whether or not the sub-map exists. *)
Lemma removeComponent_components app e T :
  components (removeComponent e T app) =
  JsMap.mutate T (JsMap.delete e) (components app).
Proof.
  unfold removeComponent.
  destruct (JsMap.get T (components app)) eqn:Hg; simpl; [reflexivity|].
  symmetry. apply map_mutate_id. congruence.
Qed.

Lemma fields_removeComponent app e T :
  entities (removeComponent e T app) = entities app /\
  nextId (removeComponent e T app) = nextId app /\
  arrays (removeComponent e T app) = arrays app /\
  systems (removeComponent e T app) = systems app /\
  startupSystems (removeComponent e T app) = startupSystems app /\
  running (removeComponent e T app) = running app /\
  resources (removeComponent e T app) = resources app.
Proof.
  unfold removeComponent.
  destruct (JsMap.get _ _); simpl; repeat split; reflexivity.
Qed.

Lemma with_components_same app : with_components (components app) app = app.
Proof. now destruct app. Qed.

Lemma with_entities_same app : with_entities (entities app) app = app.
Proof. now destruct app. Qed.

Lemma removeEntity_loop app e (ks : list string) :
  fold_left
    (fun a type =>
       match JsMap.get type (components a) with
       | Some _ =>
           with_components
             (JsMap.mutate type (JsMap.delete e) (components a)) a
       | None => a
       end) ks app =
  with_components
    (fold_left (fun cs type => JsMap.mutate type (JsMap.delete e) cs) ks
       (components app)) app.
Proof.
  revert app. induction ks as [|k ks IH]; intros app; simpl.
  - now rewrite with_components_same.
  - rewrite IH. destruct (JsMap.get k (components app)) eqn:Hg; simpl.
    + reflexivity.
    + rewrite (map_mutate_id k (JsMap.delete e) (components app)) by congruence.
      reflexivity.
Qed.

Lemma removeEntity_unfold app e :
  removeEntity e app =
  with_entities (JsSet.delete e (entities app))
    (with_components
       (fold_left (fun cs type => JsMap.mutate type (JsMap.delete e) cs)
          (JsMap.keys (components app)) (components app)) app).
Proof. unfold removeEntity. now rewrite removeEntity_loop. Qed.

Lemma delete_twice e (m : JsMap.t Entity (@Component Payload)) :
  JsMap.delete e (JsMap.delete e m) = JsMap.delete e m.
Proof.
  apply map_delete_absent. rewrite map_has_get.
  now rewrite map_get_delete_same.
Qed.

Lemma sweep_get e (ks : list string) cs T :
  JsMap.get T (fold_left (fun cs type => JsMap.mutate type (JsMap.delete e) cs) ks cs) =
  if in_dec string_dec T ks
  then option_map (JsMap.delete e) (JsMap.get T cs)
  else JsMap.get T cs.
Proof.
  revert cs. induction ks as [|k ks IH]; intros cs; simpl; [reflexivity|].
  rewrite IH.
  destruct (string_dec k T) as [-> | Hne].
  - rewrite map_get_mutate_same.
    destruct (in_dec string_dec T ks); [|reflexivity].
    destruct (JsMap.get T cs); simpl; [|reflexivity].
    now rewrite delete_twice.
  - rewrite map_get_mutate_other by congruence.
    now destruct (in_dec string_dec T ks).
Qed.


Lemma removeEntity_get app e T :
  JsMap.get T (components (removeEntity e app)) =
  option_map (JsMap.delete e) (JsMap.get T (components app)).
Proof.
  rewrite removeEntity_unfold. simpl. rewrite sweep_get.
  destruct (in_dec string_dec T (JsMap.keys (components app))) as [Hin | Hnin];
    [reflexivity|].
  destruct (JsMap.get T (components app)) eqn:Hg; [|reflexivity].
  exfalso. apply Hnin. apply map_has_keys. apply map_has_true. eauto.
Qed.

Lemma set_delete_In (e e' : Entity) (s : list Entity) :
  In e' (JsSet.delete e s) <-> In e' s /\ e' <> e.
Proof.
  unfold JsSet.delete. rewrite filter_In. simpl.
  rewrite negb_true_iff, Z.eqb_neq. intuition congruence.
Qed.

Lemma set_delete_absent (e : Entity) (s : list Entity) :
  ~ In e s -> JsSet.delete e s = s.
Proof.
  unfold JsSet.delete. induction s as [|x s IH]; intros Hnin; [reflexivity|].
  cbn [filter]. case_same e x.
  - exfalso. apply Hnin. now left.
  - cbn [negb]. f_equal. apply IH. intros Hin. apply Hnin. now right.
Qed.

End StoreFacts.

(** * The invariant holds in every state the methods can produce *)

Section Invariant.
Context {Payload Resources : Type}.
Implicit Types (app : @App Payload Resources) (e : Entity).
Implicit Types (c : @Component Payload) (T : string).
Implicit Types (cs : JsMap.t string (JsMap.t Entity (@Component Payload))).

Lemma store_ok_same_components app app' :
  components app' = components app -> store_ok app -> store_ok app'.
Proof. unfold store_ok. now intros ->. Qed.

Lemma store_ok_createApp (r : Resources) :
  store_ok (createApp (Payload := Payload) r).
Proof. split; constructor. Qed.

Lemma submap_ok_set T e c (m : JsMap.t Entity (@Component Payload)) :
  type c = T -> submap_ok (T, m) -> submap_ok (T, JsMap.set e c m).
Proof.
  intros HT [Hok Htag]. split; simpl in *.
  - auto with jsmap.
  - intros e' c' Hin. apply map_In_set in Hin as [[_ ->] | Hin]; eauto.
Qed.

Lemma submap_ok_delete T e (m : JsMap.t Entity (@Component Payload)) :
  submap_ok (T, m) -> submap_ok (T, JsMap.delete e m).
Proof.
  intros [Hok Htag]. split; simpl in *.
  - auto with jsmap.
  - intros e' c' Hin. apply map_delete_incl in Hin. eauto.
Qed.

Lemma store_ok_addComponent app e c :
  store_ok app -> store_ok (addComponent e c app).
Proof.
  intros [Hok Hsub]. unfold store_ok. rewrite components_addComponent.
  assert (Hens : JsMap.ok (ensure_submap (type c) (components app)) /\
                 Forall submap_ok (ensure_submap (type c) (components app))).
  { unfold ensure_submap. destruct (JsMap.has _ _) eqn:Hh; simpl; [auto|].
    split; [auto with jsmap|].
    clear Hok Hh. induction Hsub as [|[T m] r Hx Hr IH]; simpl.
    - repeat constructor. simpl. tauto.
    - destruct (String.eqb (type c) T); constructor; auto.
      destruct Hx as [Hok Htag]. split; simpl in *; [constructor | tauto]. }
  destruct Hens as [Hok' Hsub']. split; [auto with jsmap|].
  apply map_mutate_Forall; [|assumption].
  intros m. now apply submap_ok_set.
Qed.

Lemma store_ok_removeComponent app e T :
  store_ok app -> store_ok (removeComponent e T app).
Proof.
  intros [Hok Hsub]. unfold store_ok. rewrite removeComponent_components.
  split; [auto with jsmap|].
  apply map_mutate_Forall; [|assumption].
  intros m. apply submap_ok_delete.
Qed.

Lemma store_ok_removeEntity app e :
  store_ok app -> store_ok (removeEntity e app).
Proof.
  intros Hst. rewrite removeEntity_unfold. unfold store_ok. simpl.
  destruct Hst as [Hok Hsub].
  generalize (JsMap.keys (components app)) as ks.
  revert Hok Hsub. generalize (components app) as cs.
  intros cs Hok Hsub ks. revert cs Hok Hsub.
  induction ks as [|k ks IH]; intros cs Hok Hsub; simpl; [auto|].
  apply IH; [auto with jsmap|].
  apply map_mutate_Forall; [|assumption].
  intros m. apply submap_ok_delete.
Qed.

Lemma store_ok_clearEntities app : store_ok (clearEntities app).
Proof. split; constructor. Qed.

Lemma store_ok_addEntity app (comps : list (@Component Payload)) :
  store_ok app -> store_ok (snd (addEntity comps app)).
Proof.
  intros Hst. unfold addEntity. simpl.
  set (a0 := with_entities _ _).
  assert (H0 : store_ok a0) by exact Hst.
  clearbody a0. clear Hst. revert a0 H0.
  induction comps as [|c comps IH]; intros a0 H0; simpl; [assumption|].
  apply IH. now apply store_ok_addComponent.
Qed.

Lemma store_ok_exec (call : @Call Payload) app :
  store_ok app -> store_ok (fst (exec call app)).
Proof.
  intros Hst. destruct call; unfold exec.
  - pose proof (store_ok_addEntity comps Hst) as Hs.
    destruct (addEntity comps app). exact Hs.
  - now apply store_ok_addComponent.
  - now apply store_ok_removeComponent.
  - now apply store_ok_removeEntity.
  - apply store_ok_clearEntities.
  - exact Hst.
  - apply store_ok_clearEntities.
  - exact Hst.
  - exact Hst.
  - destruct startup; exact Hst.
  - exact Hst.
Qed.

Lemma store_ok_exec_all (calls : list (@Call Payload)) app :
  store_ok app -> store_ok (fst (exec_all calls app)).
Proof.
  revert app. induction calls as [|call calls IH]; intros app Hst; simpl;
    [assumption|].
  pose proof (store_ok_exec call Hst) as H1.
  destruct (exec call app) as [app1 ids1]. simpl in H1.
  specialize (IH app1 H1).
  destruct (exec_all calls app1) as [app2 ids2]. exact IH.
Qed.

Lemma reachable_store_ok app : reachable app -> store_ok app.
Proof.
  intros [r [calls <-]]. apply store_ok_exec_all. apply store_ok_createApp.
Qed.

End Invariant.

(** * Lookups and removals *)

Section Lookups.
Context {Payload Resources : Type}.
Implicit Types (app : @App Payload Resources) (e : Entity).
Implicit Types (c : @Component Payload) (T : string).

Lemma getComponent_tagged app e T c :
  store_ok app -> getComponent app e T = Some c -> type c = T.
Proof.
  intros [_ Hsub] Hg. unfold getComponent in Hg.
  destruct (JsMap.get T (components app)) as [m|] eqn:Hm; [|discriminate].
  apply map_get_In in Hm. apply map_get_In in Hg.
  rewrite Forall_forall in Hsub.
  destruct (Hsub _ Hm) as [_ Htag]. simpl in Htag. eauto.
Qed.

(** C3.  In a state of the store, [hasComponent(e, T)] is true exactly when
    [getComponent(e, T)] returns a component, and a component that is
    returned has [type] equal to [T].  Both are total: when the store has no
    sub-map for [T] the optional chain stops, [getComponent] returns
    [undefined] and [hasComponent] returns [false]. *)
Theorem hasComponent_iff_getComponent app e T :
  store_ok app ->
  (hasComponent app e T = true <-> exists c, getComponent app e T = Some c) /\
  (forall c, getComponent app e T = Some c -> type c = T) /\
  (JsMap.get T (components app) = None ->
   getComponent app e T = None /\ hasComponent app e T = false).
Proof.
  intros Hst. split; [|split].
  - rewrite hasComponent_getComponent.
    destruct (getComponent app e T) as [c|].
    + split; eauto.
    + split; [discriminate | intros [c Hc]; discriminate].
  - intros c. now apply getComponent_tagged.
  - intros Hnone. unfold getComponent, hasComponent. now rewrite Hnone.
Qed.

Lemma getComponent_removeEntity app e e' T :
  getComponent (removeEntity e app) e' T =
  if Z.eqb e' e then None else getComponent app e' T.
Proof.
  unfold getComponent. rewrite removeEntity_get.
  destruct (JsMap.get T (components app)) as [m|]; simpl.
  - destruct (Z.eqb_spec e' e) as [-> | Hne].
    + apply map_get_delete_same.
    + now apply map_get_delete_other.
  - now destruct (Z.eqb e' e).
Qed.

Lemma entities_removeEntity app e :
  getEntities (removeEntity e app) = JsSet.delete e (getEntities app).
Proof. now rewrite removeEntity_unfold. Qed.

(** C4.  After [removeEntity(e)] the registry no longer holds [e] and no type
    tag has a component for [e]; every other entity is in the registry
    exactly if it was before, the remaining ids keep their order, and its
    components are the ones it had. *)
Theorem removeEntity_removes app e :
  let app' := removeEntity e app in
  ~ In e (getEntities app') /\
  (forall T, hasComponent app' e T = false /\ getComponent app' e T = None) /\
  (forall e', e' <> e -> (In e' (getEntities app') <-> In e' (getEntities app))) /\
  getEntities app' = filter (fun e' => negb (Z.eqb e e')) (getEntities app) /\
  (forall e' T, e' <> e ->
     getComponent app' e' T = getComponent app e' T /\
     hasComponent app' e' T = hasComponent app e' T).
Proof.
  cbv zeta. split; [|split; [|split; [|split]]].
  - rewrite entities_removeEntity. intros Hin.
    apply set_delete_In in Hin. tauto.
  - intros T. rewrite hasComponent_getComponent, getComponent_removeEntity.
    now rewrite Z.eqb_refl.
  - intros e' Hne. rewrite entities_removeEntity, set_delete_In. tauto.
  - now rewrite entities_removeEntity.
  - intros e' T Hne. rewrite !hasComponent_getComponent.
    rewrite getComponent_removeEntity.
    apply Z.eqb_neq in Hne. now rewrite Hne.
Qed.

Lemma removeComponent_absent app e T :
  hasComponent app e T = false -> removeComponent e T app = app.
Proof.
  intros Hh. unfold removeComponent, hasComponent in *.
  destruct (JsMap.get T (components app)) as [m|] eqn:Hm; [|reflexivity].
  rewrite map_mutate_id; [apply with_components_same|].
  intros m' Hm'. rewrite Hm in Hm'. injection Hm' as <-.
  now apply map_delete_absent.
Qed.

Lemma removeEntity_absent app e :
  ~ In e (getEntities app) -> (forall T, hasComponent app e T = false) ->
  removeEntity e app = app.
Proof.
  intros Hnin Hno. rewrite removeEntity_unfold.
  assert (Hsweep : forall ks,
    fold_left (fun cs type => JsMap.mutate type (JsMap.delete e) cs) ks
      (components app) = components app).
  { induction ks as [|k ks IH]; simpl; [reflexivity|].
    rewrite map_mutate_id; [exact IH|].
    intros m Hm. specialize (Hno k). unfold hasComponent in Hno.
    rewrite Hm in Hno. now apply map_delete_absent. }
  rewrite Hsweep, with_components_same.
  unfold getEntities in Hnin. rewrite set_delete_absent by assumption.
  apply with_entities_same.
Qed.


Lemma getComponent_removeComponent app e T e' T' :
  e' <> e \/ T' <> T ->
  getComponent (removeComponent e T app) e' T' = getComponent app e' T'.
Proof.
  intros Hne. unfold getComponent. rewrite removeComponent_components.
  destruct (string_dec T' T) as [-> | HT].
  - destruct Hne as [He | HT]; [|congruence].
    rewrite map_get_mutate_same.
    destruct (JsMap.get T (components app)); simpl; [|reflexivity].
    now apply map_get_delete_other.
  - now rewrite map_get_mutate_other.
Qed.


End Lookups.

(** * Arrays and the heap *)

Section HeapFacts.
Context {Payload : Type}.
Implicit Types (a pre mid post : list (@Value Payload)) (v : @Value Payload).
Implicit Types (h : @Heap Payload).

Lemma array_set_app pre i v a :
  array_set (length pre + i) v (pre ++ a) = pre ++ array_set i v a.
Proof. induction pre as [|x pre IH]; simpl; [reflexivity | now rewrite IH]. Qed.

Lemma array_set_head pre v x post :
  array_set (length pre) v (pre ++ x :: post) = pre ++ v :: post.
Proof.
  rewrite <- (Nat.add_0_r (length pre)). now rewrite array_set_app.
Qed.

Lemma array_fill (g : nat -> @Value Payload) k :
  forall j pre mid post,
    length pre = j -> length mid = k ->
    fold_left (fun a i => array_set i (g i) a) (seq j k) (pre ++ mid ++ post) =
    pre ++ map g (seq j k) ++ post.
Proof.
  induction k as [|k IH]; intros j pre mid post Hj Hk.
  - destruct mid; [reflexivity | discriminate].
  - destruct mid as [|x mid]; [discriminate|].
    injection Hk as Hk. subst j. cbn [seq fold_left map app].
    rewrite array_set_head.
    change (pre ++ g (length pre) :: mid ++ post)
      with (pre ++ [g (length pre)] ++ mid ++ post).
    rewrite app_assoc.
    rewrite (IH (S (length pre)) (pre ++ [g (length pre)]) mid post); auto.
    + now rewrite <- app_assoc.
    + rewrite length_app. simpl. lia.
Qed.

Lemma write_at h i v a (post : @Heap Payload) :
  write (length h) i v (h ++ a :: post) = h ++ array_set i v a :: post.
Proof. induction h as [|x h IH]; simpl; [reflexivity | now rewrite IH]. Qed.

Lemma write_fold h (g : nat -> @Value Payload) (l : list nat) a
  (post : @Heap Payload) :
  fold_left (fun hp i => write (length h) i (g i) hp) l (h ++ a :: post) =
  h ++ fold_left (fun a i => array_set i (g i) a) l a :: post.
Proof.
  revert a. induction l as [|i l IH]; intros a; simpl; [reflexivity|].
  now rewrite write_at, IH.
Qed.

Lemma read_at h a (post : @Heap Payload) : read (h ++ a :: post) (length h) = a.
Proof. unfold read. apply nth_middle. Qed.

Lemma read_old h (ext : @Heap Payload) p :
  p < length h -> read (h ++ ext) p = read h p.
Proof. intros Hp. unfold read. now apply app_nth1. Qed.

Lemma contents_fresh h (new : @Heap Payload) :
  contents (h ++ new) (seq (length h) (length new)) = new.
Proof.
  unfold contents. revert h. induction new as [|a new IH]; intros h;
    [reflexivity|].
  cbn [length seq map]. rewrite read_at. f_equal.
  specialize (IH (h ++ [a])).
  rewrite length_app, Nat.add_1_r, <- app_assoc in IH. exact IH.
Qed.

End HeapFacts.

Lemma map_nth_error_seq {A B : Type} (F : option A -> B) (l : list A) :
  map (fun i => F (nth_error l i)) (seq 0 (length l)) =
  map (fun x => F (Some x)) l.
Proof.
  induction l as [|x l IH]; [reflexivity|].
  cbn [length seq map nth_error]. f_equal.
  rewrite <- seq_shift, map_map. exact IH.
Qed.


Lemma forallb_map_comp {A B : Type} (f : A -> B) (p : B -> bool) (l : list A) :
  forallb p (map f l) = forallb (fun x => p (f x)) l.
Proof. induction l as [|x l IH]; simpl; [reflexivity | now rewrite IH]. Qed.

Lemma forallb_nth_error_seq {A : Type} (G : option A -> bool) (l : list A) :
  forallb (fun i => G (nth_error l i)) (seq 0 (length l)) =
  forallb (fun x => G (Some x)) l.
Proof.
  induction l as [|x l IH]; [reflexivity|].
  cbn [length seq forallb nth_error]. f_equal.
  rewrite <- seq_shift, forallb_map_comp. exact IH.
Qed.

Lemma last_cons_default {A : Type} (l : list A) :
  forall x d, last (x :: l) d = last l x.
Proof.
  induction l as [|y l IH]; intros x d; [reflexivity|].
  change (last (x :: y :: l) d) with (last (y :: l) d).
  now rewrite (IH y d), (IH y x).
Qed.

(** * The query engine *)

Section QueryFacts.
Context {Payload Resources : Type}.
Implicit Types (app : @App Payload Resources) (e : Entity).
Implicit Types (ts types : list string).
Implicit Types (h : @Heap Payload).

Lemma checkRemainingComponents_tail app e (t0 : string) ts :
  checkRemainingComponents app e (t0 :: ts) = forallb (hasComponent app e) ts.
Proof.
  unfold checkRemainingComponents.
  replace (length (t0 :: ts) - 1) with (length ts) by (simpl; lia).
  rewrite <- seq_shift, forallb_map_comp. cbn [nth_error].
  apply (forallb_nth_error_seq
           (fun o => match o with
                     | Some t => hasComponent app e t
                     | None => false
                     end)).
Qed.

Lemma getComponent_at_all app e types :
  map (fun i => of_lookup (getComponent_at app e types i)) (seq 0 (length types)) =
  map (fun t => of_lookup (getComponent app e t)) types.
Proof.
  unfold getComponent_at.
  apply (map_nth_error_seq
           (fun o => of_lookup match o with
                               | Some t => getComponent app e t
                               | None => None
                               end)).
Qed.

(** Whatever the array at [tuple] held, after [storeQueryTuple] it holds the
    tuple of the entity: every slot is written. *)
Lemma storeQueryTuple_fresh app t0 ts e h (a : list (@Value Payload))
  (post : @Heap Payload) :
  length a = length (t0 :: ts) + 1 ->
  storeQueryTuple app (t0 :: ts) e (length h) (h ++ a :: post) =
  h ++ tuple_of app (t0 :: ts) e :: post.
Proof.
  intros Hlen. unfold storeQueryTuple.
  rewrite write_at.
  rewrite (write_fold h (fun i => of_lookup (getComponent_at app e (t0 :: ts) i))).
  rewrite write_at. f_equal. f_equal.
  destruct a as [|x0 a]; [discriminate|].
  cbn [length] in Hlen.
  assert (Ha : a <> []) by (intros ->; simpl in Hlen; lia).
  destruct (exists_last Ha) as [mid [xl ->]].
  rewrite length_app in Hlen. cbn [length] in Hlen.
  assert (Hmid : length mid = length ts) by lia.
  cbn [array_set].
  replace (length (t0 :: ts) - 1) with (length ts) by (simpl; lia).
  cbn [length].
  set (g := fun i => of_lookup (getComponent_at app e (t0 :: ts) i)).
  change (array_set (S (length ts)) (VEntity e)
            (fold_left (fun a i => array_set i (g i) a) (seq 1 (length ts))
               ([g 0] ++ mid ++ [xl])) =
          tuple_of app (t0 :: ts) e).
  rewrite (@array_fill _ g (length ts) 1 [g 0] mid [xl]) by auto.
  replace (S (length ts)) with (length ([g 0] ++ map g (seq 1 (length ts))))
    by (rewrite length_app, length_map, length_seq; reflexivity).
  rewrite app_assoc, array_set_head.
  unfold tuple_of. f_equal.
  rewrite <- (getComponent_at_all app e (t0 :: ts)). reflexivity.
Qed.

Lemma query_loop app t0 ts (es : list Entity) :
  forall (tuples : list Addr) h,
    fold_left
      (fun (acc : list Addr * @Heap Payload) entity =>
         let (tuples, hp) := acc in
         if checkRemainingComponents app entity (t0 :: ts) then
           let (tuple, h1) := alloc (new_Array (length (t0 :: ts) + 1)) hp in
           (tuples ++ [tuple], storeQueryTuple app (t0 :: ts) entity tuple h1)
         else acc)
      es (tuples, h) =
    let found := filter (fun e => checkRemainingComponents app e (t0 :: ts)) es in
    (tuples ++ seq (length h) (length found),
     h ++ map (tuple_of app (t0 :: ts)) found).
Proof.
  induction es as [|e es IH]; intros tuples h; cbn [fold_left filter].
  - cbn. now rewrite !app_nil_r.
  - destruct (checkRemainingComponents app e (t0 :: ts)) eqn:Hchk.
    + unfold alloc.
      rewrite storeQueryTuple_fresh
        by (unfold new_Array; now rewrite repeat_length).
      rewrite IH. cbv zeta. cbn [length seq map].
      rewrite length_app. cbn [length]. rewrite Nat.add_1_r.
      now rewrite <- !app_assoc.
    + apply IH.
Qed.

Lemma query_spec app t0 ts h :
  query app t0 ts h =
  (seq (length h) (length (matching app t0 ts)),
   h ++ map (tuple_of app (t0 :: ts)) (matching app t0 ts)).
Proof.
  unfold query, matching, anchor_keys.
  destruct (JsMap.get t0 (components app)) as [m|].
  - now rewrite query_loop.
  - cbn. now rewrite app_nil_r.
Qed.

Lemma query_contents app t0 ts h :
  contents (snd (query app t0 ts h)) (fst (query app t0 ts h)) =
  map (tuple_of app (t0 :: ts)) (matching app t0 ts).
Proof.
  rewrite query_spec. cbn [fst snd].
  rewrite <- (length_map (tuple_of app (t0 :: ts))).
  apply contents_fresh.
Qed.

Lemma queryIter_loop {A : Type} (yield : Addr -> @Heap Payload -> A -> A)
  app t0 ts h (es : list Entity) :
  forall (acc : A) (buf : list (@Value Payload)),
    length buf = length (t0 :: ts) + 1 ->
    fold_left
      (fun (acc : A * @Heap Payload) entity =>
         let (a, hp) := acc in
         if checkRemainingComponents app entity (t0 :: ts) then
           let h1 := storeQueryTuple app (t0 :: ts) entity (length h) hp in
           (yield (length h) h1 a, h1)
         else acc)
      es (acc, h ++ [buf]) =
    let found := filter (fun e => checkRemainingComponents app e (t0 :: ts)) es in
    (fold_left
       (fun a e => yield (length h) (h ++ [tuple_of app (t0 :: ts) e]) a)
       found acc,
     h ++ [last (map (tuple_of app (t0 :: ts)) found) buf]).
Proof.
  induction es as [|e es IH]; intros acc buf Hbuf; cbn [fold_left filter].
  - reflexivity.
  - destruct (checkRemainingComponents app e (t0 :: ts)) eqn:Hchk.
    + cbv zeta. rewrite storeQueryTuple_fresh by assumption.
      rewrite IH.
      * cbv zeta. cbn [fold_left map]. f_equal. f_equal. f_equal.
        symmetry. apply last_cons_default.
      * unfold tuple_of. rewrite length_app, length_map. reflexivity.
    + now apply IH.
Qed.

Lemma queryIter_spec {A : Type} (yield : Addr -> @Heap Payload -> A -> A)
  app t0 ts h (init : A) :
  queryIter yield app t0 ts h init =
  (fold_left
     (fun a e => yield (length h) (h ++ [tuple_of app (t0 :: ts) e]) a)
     (matching app t0 ts) init,
   h ++ [last (map (tuple_of app (t0 :: ts)) (matching app t0 ts))
           (new_Array (length (t0 :: ts) + 1))]).
Proof.
  unfold queryIter, matching, anchor_keys, alloc.
  destruct (JsMap.get t0 (components app)) as [m|].
  - apply queryIter_loop. unfold new_Array. now rewrite repeat_length.
  - reflexivity.
Qed.


End QueryFacts.

Section QueryClaims.
Context {Payload Resources : Type}.
Implicit Types (app : @App Payload Resources) (e : Entity).
Implicit Types (c : @Component Payload) (ts types : list string).
Implicit Types (h : @Heap Payload).

Lemma anchor_keys_has app (t0 : string) e :
  In e (anchor_keys app t0) <-> hasComponent app e t0 = true.
Proof.
  unfold anchor_keys, hasComponent.
  destruct (JsMap.get t0 (components app)) as [m|].
  - symmetry. apply map_has_keys.
  - simpl. split; [tauto | discriminate].
Qed.

Lemma anchor_keys_NoDup app (t0 : string) :
  store_ok app -> NoDup (anchor_keys app t0).
Proof.
  intros [_ Hsub]. unfold anchor_keys.
  destruct (JsMap.get t0 (components app)) as [m|] eqn:Hm; [|constructor].
  apply map_get_In in Hm. rewrite Forall_forall in Hsub.
  now destruct (Hsub _ Hm) as [Hok _].
Qed.

Lemma matching_In app (t0 : string) ts e :
  In e (matching app t0 ts) <->
  (forall t, In t (t0 :: ts) -> hasComponent app e t = true).
Proof.
  unfold matching. rewrite filter_In, anchor_keys_has.
  rewrite checkRemainingComponents_tail, forallb_forall.
  split.
  - intros [H0 Hts] t [<- | Hin]; auto.
  - intros Hall. split; [|intros t Hin]; apply Hall; simpl; auto.
Qed.

Lemma matching_filter app (t0 : string) ts :
  matching app t0 ts =
  filter (fun e => forallb (hasComponent app e) (t0 :: ts)) (anchor_keys app t0).
Proof.
  unfold matching. apply filter_ext_in. intros e Hin.
  rewrite checkRemainingComponents_tail. cbn [forallb].
  apply anchor_keys_has in Hin. now rewrite Hin.
Qed.

Lemma tuple_of_present app types e :
  store_ok app ->
  (forall t, In t types -> hasComponent app e t = true) ->
  exists comps,
    Forall2 (fun t c => getComponent app e t = Some c /\ type c = t) types comps /\
    tuple_of app types e = map (@VComponent Payload) comps ++ [VEntity e].
Proof.
  intros Hst. unfold tuple_of.
  induction types as [|t types IH]; intros Hall.
  - exists []. split; [constructor | reflexivity].
  - destruct IH as [comps [HF Heq]]; [intros; apply Hall; now right|].
    pose proof (Hall t (or_introl eq_refl)) as Ht.
    rewrite hasComponent_getComponent in Ht.
    destruct (getComponent app e t) as [c|] eqn:Hc; [|discriminate].
    exists (c :: comps). split.
    + constructor; [|assumption]. split; [assumption|].
      eapply getComponent_tagged; eauto.
    + cbn [map List.app]. rewrite Hc. cbn [of_lookup].
      apply app_inv_tail in Heq. now rewrite Heq.
Qed.

(** C1.  In a state of the store and for a non-empty list of type tags, the
    array [query] returns reads as one tuple for each entity of [found], in
    that order; [found] has no entity twice, holds exactly the entities with
    a component of every listed type, and is the key sequence of the
    sub-map of the first type with the other entities left out; each tuple
    is the entity's components, one per listed type in list order, with the
    id last. *)
Theorem query_returns_matching app (t0 : string) ts h :
  store_ok app ->
  let types := t0 :: ts in
  let result := contents (snd (query app t0 ts h)) (fst (query app t0 ts h)) in
  exists found : list Entity,
    result = map (tuple_of app types) found /\
    NoDup found /\
    (forall e, In e found <->
               (forall t, In t types -> hasComponent app e t = true)) /\
    found = filter (fun e => forallb (hasComponent app e) types)
              (anchor_keys app t0) /\
    (forall e, In e found ->
       exists comps,
         Forall2 (fun t c => getComponent app e t = Some c /\ type c = t)
           types comps /\
         tuple_of app types e = map (@VComponent Payload) comps ++ [VEntity e]).
Proof.
  intros Hst. cbv zeta. exists (matching app t0 ts).
  split; [apply query_contents|].
  split; [apply NoDup_filter; now apply anchor_keys_NoDup|].
  split; [apply matching_In|].
  split; [apply matching_filter|].
  intros e Hin. apply tuple_of_present; [assumption|].
  now apply matching_In.
Qed.


(** What collecting the yielded values gives instead: as many references to
    the one buffer as there are matches, all reading as the last tuple. *)
Lemma Array_from_queryIter_aliases app (t0 : string) ts h :
  let found := matching app t0 ts in
  let collected := Array_from_queryIter app t0 ts h in
  fst collected = repeat (length h) (length found) /\
  contents (snd collected) (fst collected) =
  repeat (last (map (tuple_of app (t0 :: ts)) found)
            (new_Array (length (t0 :: ts) + 1)))
    (length found).
Proof.
  cbv zeta. unfold Array_from_queryIter. rewrite queryIter_spec. cbn [fst snd].
  assert (Hrep : forall (l : list Entity) (acc : list Addr),
             fold_left (fun out _ => out ++ [length h]) l acc =
             acc ++ repeat (length h) (length l)).
  { induction l as [|x l IH]; intros acc; simpl.
    - now rewrite app_nil_r.
    - rewrite IH. now rewrite <- app_assoc. }
  rewrite Hrep. cbn [List.app]. split; [reflexivity|].
  unfold contents.
  generalize (length (matching app t0 ts)) as n.
  induction n as [|n IH]; [reflexivity|].
  cbn [repeat map]. now rewrite read_at, IH.
Qed.

Lemma query_allocates app (t0 : string) ts h :
  Forall (fun p => p < length (snd (query app t0 ts h)))
    (fst (query app t0 ts h)).
Proof.
  rewrite query_spec. cbn [fst snd]. apply Forall_forall.
  intros p Hp. apply in_seq in Hp.
  rewrite length_app, length_map. lia.
Qed.

Lemma contents_old h (ext : @Heap Payload) (tuples : list Addr) :
  Forall (fun p => p < length h) tuples ->
  contents (h ++ ext) tuples = contents h tuples.
Proof.
  intros HF. unfold contents. apply map_ext_in. intros p Hp.
  rewrite Forall_forall in HF. apply read_old. auto.
Qed.

(** C7.  The first [get] of a wrapper made by [cacheQuery] returns what
    [query] returns on the store it is given and keeps it.  Any later [get],
    on whatever the store has become and however the heap has grown, returns
    that same array, which still reads as before, and leaves the wrapper as
    it is.  After [invalidate] the next [get] returns what [query] returns on
    the store it is given then, and keeps that. *)
Theorem cacheQuery_snapshot app (t0 : string) ts h :
  let first := get (cacheQuery t0 ts) app h in
  let r1 := fst (fst first) in
  let qc1 := snd (fst first) in
  let h1 := snd first in
  (r1, h1) = query app t0 ts h /\
  cache qc1 = Some r1 /\
  (forall app' ext,
     get qc1 app' (h1 ++ ext) = (r1, qc1, h1 ++ ext) /\
     contents (h1 ++ ext) r1 = contents h1 r1) /\
  (forall app' h',
     let again := get (invalidate qc1) app' h' in
     (fst (fst again), snd again) = query app' t0 ts h' /\
     cache (snd (fst again)) = Some (fst (fst again))).
Proof.
  cbv zeta. unfold get, cacheQuery. cbn [cache cached_types fst snd].
  pose proof (query_allocates app t0 ts h) as Halloc.
  destruct (query app t0 ts h) as [r1 h1] eqn:Hq. cbn [fst snd cache] in *.
  split; [reflexivity|]. split; [reflexivity|]. split.
  - intros app' ext. split; [reflexivity|]. now apply contents_old.
  - intros app' h'. unfold invalidate. cbn [cache cached_types fst snd].
    destruct (query app' t0 ts h') as [r2 h2]. now cbn.
Qed.

Lemma getEntities_addComponent app e c :
  getEntities (addComponent e c app) = getEntities app.
Proof. unfold getEntities. apply fields_addComponent. Qed.

(** C9.  [addComponent(entity, component)] stores the component under its
    own type tag for that id whatever the registry holds: afterwards
    [getComponent] returns it, [hasComponent] is true, a query anchored on
    the tag has the id's tuple as soon as the id has the other listed types,
    and the registry is what it was, so an id that was not registered is
    still not enumerated by [getEntities]. *)
Theorem addComponent_without_registration app e c :
  let app' := addComponent e c app in
  getComponent app' e (type c) = Some c /\
  hasComponent app' e (type c) = true /\
  getEntities app' = getEntities app /\
  (~ In e (getEntities app) -> ~ In e (getEntities app')) /\
  (forall ts h,
     (forall t, In t ts -> hasComponent app' e t = true) ->
     In (tuple_of app' (type c :: ts) e)
        (contents (snd (query app' (type c) ts h))
                  (fst (query app' (type c) ts h)))) /\
  (forall h,
     In [VComponent c; VEntity e]
        (contents (snd (query app' (type c) [] h))
                  (fst (query app' (type c) [] h)))).
Proof.
  cbv zeta.
  assert (Hget : getComponent (addComponent e c app) e (type c) = Some c)
    by apply getComponent_addComponent_same.
  assert (Hhas : hasComponent (addComponent e c app) e (type c) = true)
    by (rewrite hasComponent_getComponent; now rewrite Hget).
  assert (Hq : forall ts h,
     (forall t, In t ts -> hasComponent (addComponent e c app) e t = true) ->
     In (tuple_of (addComponent e c app) (type c :: ts) e)
        (contents (snd (query (addComponent e c app) (type c) ts h))
                  (fst (query (addComponent e c app) (type c) ts h)))).
  { intros ts h Hts. rewrite query_contents. apply in_map.
    apply matching_In. intros t [<- | Hin]; auto. }
  split; [assumption|]. split; [assumption|].
  split; [apply getEntities_addComponent|].
  split; [now rewrite getEntities_addComponent|].
  split; [assumption|].
  intros h. specialize (Hq [] h).
  unfold tuple_of in Hq. cbn [map List.app] in Hq. rewrite Hget in Hq.
  apply Hq. intros t [].
Qed.

End QueryClaims.

(** * Systems and the scheduler *)

Lemma skipn_nth_error {A : Type} (l : list A) :
  forall i x, nth_error l i = Some x -> skipn i l = x :: skipn (S i) l.
Proof.
  induction l as [|y l IH]; intros [|i] x Hx; try discriminate.
  - now injection Hx as ->.
  - cbn [nth_error] in Hx. cbn [skipn]. now apply IH.
Qed.

Lemma skipn_past {A : Type} (l : list A) i :
  nth_error l i = None -> skipn i l = [].
Proof. intros Hn. apply skipn_all2. now apply nth_error_None. Qed.

Section SchedulerFacts.
Context {Payload Resources : Type}.
Implicit Types (app : @App Payload Resources).

Lemma combine_from_spec (systems : list (@System Payload Resources)) :
  forall n i app,
    length systems <= i + n ->
    combine_from systems n i app =
    fold_left (fun a s => s a) (skipn i systems) app.
Proof.
  induction n as [|n IH]; intros i app Hn; cbn [combine_from].
  - rewrite skipn_all2 by lia. reflexivity.
  - destruct (nth_error systems i) as [s|] eqn:Hs.
    + rewrite (skipn_nth_error _ _ Hs). cbn [fold_left]. apply IH. lia.
    + now rewrite (skipn_past _ _ Hs).
Qed.

(** C10.  Calling the system made by [combineSystems(s1, ..., sn)] on an
    application does what calling [s1], ..., [sn] on it one after the other
    does; with no arguments the system does nothing. *)
Theorem combineSystems_sequential (systems : list (@System Payload Resources)) app :
  combineSystems systems app = fold_left (fun a s => s a) systems app /\
  combineSystems [] app = app.
Proof.
  split; [|reflexivity].
  unfold combineSystems. now rewrite combine_from_spec by lia.
Qed.

Variable sem : SystemRef -> @System Payload Resources.

Lemma step_from_stable (l : list SystemRef) :
  (forall s, In s l -> forall a, systems_now (sem s a) = systems_now a) ->
  forall fuel i app,
    systems_now app = l ->
    length l - i < fuel ->
    step_from sem fuel i app =
    Some (skipn i l, fold_left (fun a s => sem s a) (skipn i l) app).
Proof.
  intros Hkeep. induction fuel as [|fuel IH]; intros i app Hl Hfuel; [lia|].
  cbn [step_from]. rewrite Hl.
  destruct (nth_error l i) as [s|] eqn:Hs.
  - assert (Hi : i < length l) by (apply nth_error_Some; congruence).
    rewrite (IH (S i) (sem s app)).
    + now rewrite (skipn_nth_error _ _ Hs).
    + rewrite Hkeep; [assumption|]. eapply nth_error_In; eauto.
    + lia.
  - now rewrite (skipn_past _ _ Hs).
Qed.

Lemma step_stable app fuel :
  (forall s, In s (systems_now app) ->
             forall a, systems_now (sem s a) = systems_now a) ->
  length (systems_now app) < fuel ->
  step sem fuel app =
  Some (systems_now app, fold_left (fun a s => sem s a) (systems_now app) app).
Proof.
  intros Hkeep Hfuel. unfold step.
  rewrite (@step_from_stable (systems_now app) Hkeep fuel 0 app eq_refl)
    by lia.
  reflexivity.
Qed.

(** A property of the application that the listed systems keep. *)
Lemma fold_sem_keeps (P : @App Payload Resources -> Prop) (l : list SystemRef) :
  (forall s, In s l -> forall a, P a -> P (sem s a)) ->
  forall app, P app -> P (fold_left (fun a s => sem s a) l app).
Proof.
  induction l as [|s l IH]; intros Hkeep app HP; cbn [fold_left];
    [assumption|].
  apply IH; [intros; apply Hkeep; auto; now right|].
  apply Hkeep; [now left | assumption].
Qed.

Lemma forEach_from_stable (arr : Addr) (l : list SystemRef) :
  (forall s, In s l -> forall a,
      startupSystems (sem s a) = startupSystems a /\
      startupSystems_now (sem s a) = startupSystems_now a) ->
  forall n k app,
    startupSystems app = arr ->
    startupSystems_now app = l ->
    length l <= k + n ->
    forEach_from sem n k arr app =
    (skipn k l, fold_left (fun a s => sem s a) (skipn k l) app).
Proof.
  intros Hkeep. induction n as [|n IH]; intros k app Harr Hl Hn;
    cbn [forEach_from].
  - rewrite skipn_all2 by lia. reflexivity.
  - assert (Hread : nth arr (arrays app) [] = l)
      by (rewrite <- Harr; exact Hl).
    rewrite Hread. destruct (nth_error l k) as [s|] eqn:Hs.
    + assert (Hin : In s l) by (eapply nth_error_In; eauto).
      destruct (Hkeep s Hin app) as [Ha Hc].
      rewrite (IH (S k) (sem s app)).
      * now rewrite (skipn_nth_error _ _ Hs).
      * congruence.
      * congruence.
      * lia.
    + rewrite (IH (S k) app) by (auto; lia).
      rewrite (skipn_past _ _ Hs).
      rewrite skipn_all2; [reflexivity|].
      apply nth_error_None in Hs. lia.
Qed.

Lemma steps_stable (reg : list SystemRef) fuel :
  (forall s, In s reg -> forall a, systems_now (sem s a) = systems_now a) ->
  length reg < fuel ->
  forall n app, systems_now app = reg ->
    exists app', steps sem fuel n app = Some (concat (repeat reg n), app').
Proof.
  intros Hkeep Hfuel. induction n as [|n IH]; intros app Hreg;
    cbn [steps repeat concat].
  - now exists app.
  - rewrite step_stable by (rewrite Hreg; auto).
    rewrite Hreg.
    destruct (IH (fold_left (fun a s => sem s a) reg app)) as [app' Happ'].
    { apply (fold_sem_keeps (fun a => systems_now a = reg)); [|assumption].
      intros s Hs a Ha. now rewrite Hkeep. }
    rewrite Happ'. now exists app'.
Qed.

Lemma count_occ_absent (l : list SystemRef) s :
  ~ In s l -> count_occ Nat.eq_dec l s = 0.
Proof. apply count_occ_not_In. Qed.

Lemma count_occ_concat_repeat (l : list SystemRef) s n :
  ~ In s l -> count_occ Nat.eq_dec (concat (repeat l n)) s = 0.
Proof.
  intros Hnin. apply count_occ_not_In. intros Hin.
  apply in_concat in Hin as [l' [Hl' Hin]].
  apply repeat_spec in Hl'. now subst.
Qed.

(** C6, as the code has it.  When no registered system changes the lists of
    systems, [step()] calls every per-step system once, in registration
    order, each on the application as the one before left it, and calls
    nothing else; [run()] calls the startup systems in registration order
    and then, if the application is still running, makes one step; any
    number of [step()] calls after it call the per-step systems only.  So a
    startup system that is not also a per-step system is called by [run()]
    as often as it is registered and never by the steps. *)
Theorem step_calls_each_system_once app fuel :
  (forall s, In s (systems_now app) \/ In s (startupSystems_now app) ->
             keeps_registry sem s) ->
  length (systems_now app) < fuel ->
  step sem fuel app =
    Some (systems_now app,
          fold_left (fun a s => sem s a) (systems_now app) app) /\
  forall n,
    exists called_run app1 raf called_steps app2,
      run sem fuel app = Some (called_run, app1, raf) /\
      steps sem fuel n app1 = Some (called_steps, app2) /\
      (called_run = startupSystems_now app ++ systems_now app \/
       called_run = startupSystems_now app) /\
      called_steps = concat (repeat (systems_now app) n) /\
      (forall s, ~ In s (systems_now app) ->
         count_occ Nat.eq_dec called_run s =
           count_occ Nat.eq_dec (startupSystems_now app) s /\
         count_occ Nat.eq_dec called_steps s = 0).
Proof.
  intros Hkeep Hfuel.
  assert (Hsys : forall s, In s (systems_now app) ->
                   forall a, systems_now (sem s a) = systems_now a).
  { intros s Hs a. apply (Hkeep s); now left. }
  assert (Hsys' : forall s, In s (startupSystems_now app) ->
                    forall a, systems_now (sem s a) = systems_now a).
  { intros s Hs a. apply (Hkeep s); now right. }
  assert (Hst : forall s, In s (startupSystems_now app) -> forall a,
                  startupSystems (sem s a) = startupSystems a /\
                  startupSystems_now (sem s a) = startupSystems_now a).
  { intros s Hs a. destruct (Hkeep s (or_intror Hs) a) as [_ [H2 [_ H4]]].
    now split. }
  split; [now apply step_stable|].
  intros n. unfold run. cbv zeta.
  rewrite (@forEach_from_stable (startupSystems (with_running true app))
             (startupSystems_now app) Hst
             (length (nth (startupSystems (with_running true app))
                        (arrays (with_running true app)) []))
             0 (with_running true app) eq_refl eq_refl)
    by (cbn; unfold startupSystems_now; lia).
  cbn [skipn].
  set (app2 := fold_left (fun a s => sem s a) (startupSystems_now app)
                 (with_running true app)).
  assert (Hreg2 : systems_now app2 = systems_now app).
  { apply (fold_sem_keeps (fun a => systems_now a = systems_now app));
      [|reflexivity].
    intros s Hs a Ha. now rewrite Hsys'. }
  assert (Hfold : forall a, systems_now a = systems_now app ->
            systems_now (fold_left (fun a s => sem s a) (systems_now app) a) =
            systems_now app).
  { intros a Ha.
    apply (fold_sem_keeps (fun a => systems_now a = systems_now app));
      [|assumption].
    intros s Hs a' Ha'. now rewrite Hsys. }
  unfold loop. destruct (running app2).
  - rewrite step_stable by (rewrite Hreg2; auto). rewrite Hreg2.
    set (app3 := fold_left _ (systems_now app) app2).
    destruct (@steps_stable (systems_now app) fuel Hsys Hfuel n app3)
      as [app4 Happ4].
    { now apply Hfold. }
    exists (startupSystems_now app ++ systems_now app), app3, true,
      (concat (repeat (systems_now app) n)), app4.
    split; [reflexivity|]. split; [assumption|]. split; [now left|].
    split; [reflexivity|]. intros s Hs. split.
    + rewrite count_occ_app.
      pose proof (count_occ_absent _ _ Hs) as Hz. unfold SystemRef in *. lia.
    + now apply count_occ_concat_repeat.
  - destruct (@steps_stable (systems_now app) fuel Hsys Hfuel n app2 Hreg2)
      as [app4 Happ4].
    exists (startupSystems_now app ++ []), app2, false,
      (concat (repeat (systems_now app) n)), app4.
    rewrite app_nil_r.
    split; [reflexivity|]. split; [assumption|]. split; [now right|].
    split; [reflexivity|]. intros s Hs. split; [reflexivity|].
    now apply count_occ_concat_repeat.
Qed.

End SchedulerFacts.

(** * Entity ids *)

Lemma consecutive_sorted (base : Z) (n : nat) :
  forall j, StronglySorted Z.lt (map (fun k => (base + Z.of_nat k)%Z) (seq j n)).
Proof.
  induction n as [|n IH]; intros j; cbn [seq map]; constructor.
  - apply IH.
  - apply Forall_forall. intros y Hy.
    apply in_map_iff in Hy as [k [<- Hk]]. apply in_seq in Hk. lia.
Qed.

Section Ids.
Context {Payload Resources : Type}.
Implicit Types (app : @App Payload Resources) (e : Entity).
Implicit Types (comps : list (@Component Payload)).
Implicit Types (calls : list (@Call Payload)).

Lemma nextId_addComponents comps (id : Entity) :
  forall app,
    nextId (fold_left (fun a c => addComponent id c a) comps app) = nextId app.
Proof.
  induction comps as [|c comps IH]; intros app; cbn [fold_left];
    [reflexivity|].
  rewrite IH. apply fields_addComponent.
Qed.

Lemma addEntity_id comps app : fst (addEntity comps app) = nextId app.
Proof. reflexivity. Qed.

Lemma addEntity_nextId comps app :
  nextId (snd (addEntity comps app)) = number_succ (nextId app).
Proof. unfold addEntity. cbn [snd]. now rewrite nextId_addComponents. Qed.

Lemma nextId_removeEntity app e : nextId (removeEntity e app) = nextId app.
Proof. now rewrite removeEntity_unfold. Qed.

Lemma exec_ids (call : @Call Payload) app :
  (snd (exec call app) = [] /\ nextId (fst (exec call app)) = nextId app) \/
  (snd (exec call app) = [nextId app] /\
   nextId (fst (exec call app)) = number_succ (nextId app)).
Proof.
  destruct call; unfold exec;
    try (left; split; [reflexivity|]; cbn [fst]).
  - right. pose proof (addEntity_id comps app) as Hid.
    pose proof (addEntity_nextId comps app) as Hnext.
    destruct (addEntity comps app) as [id app']. cbn [fst snd] in *.
    now subst.
  - apply fields_addComponent.
  - apply fields_removeComponent.
  - apply nextId_removeEntity.
  - reflexivity.
  - reflexivity.
  - reflexivity.
  - reflexivity.
  - reflexivity.
  - now destruct startup.
  - reflexivity.
Qed.

Lemma exec_all_cons (call : @Call Payload) calls app :
  exec_all (call :: calls) app =
  (fst (exec_all calls (fst (exec call app))),
   snd (exec call app) ++ snd (exec_all calls (fst (exec call app)))).
Proof.
  cbn [exec_all]. destruct (exec call app) as [app1 ids1]. cbn [fst snd].
  now destruct (exec_all calls app1).
Qed.

Lemma exec_all_app calls calls' app :
  fst (exec_all (calls ++ calls') app) =
  fst (exec_all calls' (fst (exec_all calls app))).
Proof.
  revert app. induction calls as [|call calls IH]; intros app;
    [reflexivity|].
  cbn [List.app]. rewrite !exec_all_cons. cbn [fst]. apply IH.
Qed.

(** As long as the counter stays within the exact range, the ids handed out
    are the consecutive integers from where the counter stood. *)
Lemma exec_all_ids calls :
  forall app,
    (nextId app + Z.of_nat (length (snd (exec_all calls app))) <= MAX_EXACT)%Z ->
    nextId (fst (exec_all calls app)) =
      (nextId app + Z.of_nat (length (snd (exec_all calls app))))%Z /\
    snd (exec_all calls app) =
      map (fun k => (nextId app + Z.of_nat k)%Z)
        (seq 0 (length (snd (exec_all calls app)))).
Proof.
  induction calls as [|call calls IH]; intros app.
  - cbn. split; [lia | reflexivity].
  - rewrite exec_all_cons. cbn [fst snd].
    destruct (exec_ids call app) as [[Hids Hnext] | [Hids Hnext]];
      rewrite Hids; cbn [List.app length].
    + intros Hb. specialize (IH (fst (exec call app))).
      rewrite Hnext in IH. now apply IH.
    + intros Hb.
      assert (Hsucc : number_succ (nextId app) = (nextId app + 1)%Z).
      { unfold number_succ. destruct (Z.ltb_spec (nextId app) MAX_EXACT); lia. }
      specialize (IH (fst (exec call app))).
      rewrite Hnext, Hsucc in IH.
      destruct IH as [IH1 IH2]; [lia|].
      split; [lia|].
      cbn [seq map]. f_equal; [f_equal; lia|].
      rewrite IH2 at 1. rewrite <- seq_shift, map_map.
      apply map_ext. intros k. lia.
Qed.

(** C5, as the code has it.  After any sequence of calls on a new
    application in which fewer than 2^53 ids were handed out, [addEntity]
    returns an id above every id handed out before, whatever was removed or
    cleared in between, and the counter then stands one above it; clearing
    and removing leave the counter alone. *)
Theorem addEntity_id_is_fresh (r : Resources) calls comps :
  let before := exec_all calls (createApp r) in
  let app := fst before in
  let ids := snd before in
  (Z.of_nat (length ids) < MAX_EXACT)%Z ->
  let id := fst (addEntity comps app) in
  let app' := snd (addEntity comps app) in
  Forall (fun old => (old < id)%Z) ids /\
  StronglySorted Z.lt (ids ++ [id]) /\
  nextId app' = (id + 1)%Z /\
  nextId (clearEntities app') = nextId app' /\
  nextId (clear app') = nextId app' /\
  (forall e, nextId (removeEntity e app') = nextId app').
Proof.
  cbv zeta. intros Hlt.
  destruct (exec_all_ids calls (createApp r)) as [Hnext Hids];
    [cbn [nextId createApp]; lia|].
  cbn [nextId createApp] in Hnext, Hids.
  set (n := length (snd (exec_all calls (createApp r)))) in *.
  rewrite Z.add_0_l in Hnext.
  split; [|split; [|split; [|split; [|split]]]].
  - rewrite addEntity_id, Hnext, Hids. apply Forall_forall. intros y Hy.
    apply in_map_iff in Hy as [k [<- Hk]]. apply in_seq in Hk. lia.
  - rewrite addEntity_id, Hnext, Hids.
    change [Z.of_nat n] with (map (fun k => (0 + Z.of_nat k)%Z) [0 + n]).
    rewrite <- map_app, <- (seq_S n 0). apply consecutive_sorted.
  - rewrite addEntity_id, addEntity_nextId, Hnext.
    unfold number_succ. destruct (Z.ltb_spec (Z.of_nat n) MAX_EXACT); lia.
  - reflexivity.
  - reflexivity.
  - intros e. apply nextId_removeEntity.
Qed.

Lemma exec_addEntity_nil app :
  let app' := fst (exec (CallAddEntity []) app) in
  nextId app' = number_succ (nextId app) /\
  components app' = components app /\
  arrays app' = arrays app /\
  systems app' = systems app /\
  startupSystems app' = startupSystems app /\
  running app' = running app /\
  resources app' = resources app.
Proof. cbv zeta. unfold exec, addEntity. cbn. repeat split. Qed.

Lemma repeat_addEntity (n : nat) :
  forall app,
    (nextId app + Z.of_nat n <= MAX_EXACT)%Z ->
    let app' := fst (exec_all (repeat (CallAddEntity []) n) app) in
    nextId app' = (nextId app + Z.of_nat n)%Z /\
    components app' = components app /\
    arrays app' = arrays app /\
    systems app' = systems app /\
    startupSystems app' = startupSystems app /\
    running app' = running app /\
    resources app' = resources app.
Proof.
  induction n as [|n IH]; intros app Hb; cbv zeta.
  - cbn. repeat split. lia.
  - cbn [repeat]. rewrite exec_all_cons. cbn [fst].
    destruct (exec_addEntity_nil app) as [H1 [H2 [H3 [H4 [H5 [H6 H7]]]]]].
    assert (Hsucc : number_succ (nextId app) = (nextId app + 1)%Z).
    { unfold number_succ. destruct (Z.ltb_spec (nextId app) MAX_EXACT); lia. }
    destruct (IH (fst (exec (CallAddEntity []) app)))
      as [I1 [I2 [I3 [I4 [I5 [I6 I7]]]]]]; [lia|].
    repeat split; try congruence. lia.
Qed.

End Ids.

(** * The claims on the example stores *)

Ltac solve_NoDup :=
  repeat (apply NoDup_cons; [cbn; intuition discriminate|]);
  apply NoDup_nil.

Ltac solve_submap_ok :=
  split;
  [ unfold JsMap.ok; cbn; solve_NoDup
  | cbn; intros ? ? Hin;
    repeat (destruct Hin as [Hin | Hin]; [now inversion Hin|]);
    contradiction ].

Lemma world_ok : store_ok world.
Proof.
  split.
  - unfold JsMap.ok. cbn. solve_NoDup.
  - cbn. repeat (apply Forall_cons; [solve_submap_ok|]). apply Forall_nil.
Qed.

Lemma query_returns_matching_witness :
  store_ok world /\
  let types := ["body"; "movement"]%string in
  let result :=
    contents (snd (query world "body" ["movement"%string] []))
      (fst (query world "body" ["movement"%string] [])) in
  exists found : list Entity,
    result = map (tuple_of world types) found /\
    NoDup found /\
    (forall e, In e found <->
               (forall t, In t types -> hasComponent world e t = true)) /\
    found = filter (fun e => forallb (hasComponent world e) types)
              (anchor_keys world "body") /\
    (forall e, In e found ->
       exists comps,
         Forall2 (fun t c => getComponent world e t = Some c /\ type c = t)
           types comps /\
         tuple_of world types e = map (@VComponent Z) comps ++ [VEntity e]).
Proof.
  split; [exact world_ok|].
  exact (@query_returns_matching Z unit world "body" ["movement"%string] []
           world_ok).
Defined.

Example query_body_movement :
  contents (snd (query world "body" ["movement"%string] []))
    (fst (query world "body" ["movement"%string] [])) =
  [[VComponent (comp "body" 3); VComponent (comp "movement" 4); VEntity 1%Z]].
Proof. reflexivity. Qed.

Example query_shape :
  contents (snd (query world "shape" [] [])) (fst (query world "shape" [] [])) =
  [[VComponent (comp "shape" 2); VEntity 0%Z];
   [VComponent (comp "shape" 5); VEntity 1%Z];
   [VComponent (comp "shape" 6); VEntity 2%Z]].
Proof. reflexivity. Qed.


Lemma hasComponent_iff_getComponent_witness :
  store_ok world /\
  (hasComponent world 1%Z "movement" = true <->
   exists c, getComponent world 1%Z "movement" = Some c) /\
  (forall c, getComponent world 1%Z "movement" = Some c ->
             type c = "movement"%string) /\
  (JsMap.get "movement"%string (components world) = None ->
   getComponent world 1%Z "movement" = None /\
   hasComponent world 1%Z "movement" = false).
Proof.
  split; [exact world_ok|].
  exact (@hasComponent_iff_getComponent Z unit world 1%Z "movement" world_ok).
Defined.



Lemma addComponent_without_registration_witness :
  ~ In 7%Z (getEntities (createApp (Payload := Z) tt)) /\
  hasComponent stray 7%Z "a" = true /\
  ~ In 7%Z (getEntities stray) /\
  In [VComponent (comp "a" 1); VEntity 7%Z]
     (contents (snd (query stray "a" [] [])) (fst (query stray "a" [] []))).
Proof.
  destruct (@addComponent_without_registration Z unit (createApp tt) 7%Z
              (comp "a" 1)) as [_ [Hhas [_ [Hreg [_ Hq]]]]].
  assert (Hnin : ~ In 7%Z (getEntities (createApp (Payload := Z) tt)))
    by (cbn; tauto).
  split; [exact Hnin|]. split; [exact Hhas|]. split; [exact (Hreg Hnin)|].
  exact (Hq []).
Defined.

(** C7 on the example: the wrapper keeps returning the three tuples computed
    first after entity 1 is removed, while [query] returns two; after
    [invalidate] it returns the two. *)
Example cache_is_stale_until_invalidated :
  let first := get (cacheQuery "shape" []) world [] in
  let qc := snd (fst first) in
  let h := snd first in
  let world' := removeEntity 1%Z world in
  let later := get qc world' h in
  let fresh := get (invalidate qc) world' h in
  length (contents (snd later) (fst (fst later))) = 3 /\
  length (contents (snd (query world' "shape" [] h))
            (fst (query world' "shape" [] h))) = 2 /\
  contents (snd fresh) (fst (fst fresh)) =
  [[VComponent (comp "shape" 2); VEntity 0%Z];
   [VComponent (comp "shape" 6); VEntity 2%Z]].
Proof. repeat split. Qed.

(** C6 as stated fails: system 0 takes itself off the list while [step()]
    runs, the loop index moves on, and system 1, registered all along, is
    not called in that step. *)
Lemma step_skips_system_after_removal :
  systems_now two_systems = [0; 1] /\
  step leaving 3 two_systems = Some ([0], removeSystem 0 false two_systems) /\
  systems_now (removeSystem 0 false two_systems) = [1].
Proof. repeat split. Qed.

Lemma spawning_keeps_registry (s : SystemRef) : keeps_registry spawning s.
Proof.
  intros a. unfold spawning. destruct (Nat.eqb s 0); [|repeat split].
  unfold addEntity, addComponent, systems_now, startupSystems_now. cbn.
  destruct (JsMap.get _ _); repeat split.
Qed.

Lemma step_calls_each_system_once_witness :
  length (systems_now scheduled) < 3 /\
  step spawning 3 scheduled =
    Some ([1; 2], fold_left (fun a s => spawning s a) [1; 2] scheduled) /\
  exists called_run app1 raf called_steps app2,
    run spawning 3 scheduled = Some (called_run, app1, raf) /\
    steps spawning 3 4 app1 = Some (called_steps, app2) /\
    count_occ Nat.eq_dec called_run 0 = 1 /\
    count_occ Nat.eq_dec called_steps 0 = 0.
Proof.
  assert (Hfuel : length (systems_now scheduled) < 3) by (cbn; lia).
  destruct (@step_calls_each_system_once Z unit spawning scheduled 3
              (fun s _ => spawning_keeps_registry s) Hfuel) as [Hstep Hrun].
  split; [exact Hfuel|]. split; [exact Hstep|].
  destruct (Hrun 4) as [cr [a1 [raf [cs [a2 [H1 [H2 [_ [_ Hcount]]]]]]]]].
  exists cr, a1, raf, cs, a2.
  assert (Hnot : ~ In 0 (systems_now scheduled))
    by (vm_compute; intuition discriminate).
  destruct (Hcount 0 Hnot) as [Hc1 Hc2].
  repeat split; assumption.
Defined.

(** The store [saturated] is what 2^53 calls of [addEntity()] followed by
    [clearEntities()] leave of a new application. *)
Lemma saturated_reachable : reachable saturated.
Proof.
  exists tt, (repeat (CallAddEntity []) (Z.to_nat MAX_EXACT) ++ [CallClearEntities]).
  rewrite exec_all_app.
  assert (Hn : Z.of_nat (Z.to_nat MAX_EXACT) = MAX_EXACT).
  { apply Z2Nat.id. unfold MAX_EXACT. apply Z.pow_nonneg. lia. }
  revert Hn. generalize (Z.to_nat MAX_EXACT) as n. intros n Hn.
  destruct (@repeat_addEntity Z unit n (createApp tt))
    as [H1 [H2 [H3 [H4 [H5 [H6 H7]]]]]].
  { cbn [nextId createApp]. lia. }
  cbn [nextId createApp components arrays systems startupSystems running
       resources] in H1, H2, H3, H4, H5, H6, H7.
  destruct (fst (exec_all (repeat (CallAddEntity []) n) (createApp tt)))
    as [es cs ars st sy nx rs rn].
  cbn [nextId components arrays systems startupSystems running resources]
    in H1, H2, H3, H4, H5, H6, H7.
  rewrite Z.add_0_l, Hn in H1. subst. reflexivity.
Qed.

(** C5 as stated fails: in the store [saturated] the counter stands at 2^53,
    where [nextId++] leaves it, and two calls of [addEntity] in a row return
    the same id. *)
Lemma id_handed_out_twice :
  reachable saturated /\
  fst (addEntity [] saturated) = MAX_EXACT /\
  fst (addEntity [] (snd (addEntity [] saturated))) = MAX_EXACT.
Proof.
  split; [exact saturated_reachable|]. split; reflexivity.
Qed.

Lemma addEntity_id_is_fresh_witness :
  let calls :=
    [CallAddEntity [comp "body" 1]; CallRemoveEntity 0%Z; CallAddEntity [];
     CallClearEntities; CallAddEntity []; CallClear] in
  let before := exec_all calls (createApp tt) in
  (Z.of_nat (length (snd before)) < MAX_EXACT)%Z /\
  snd before = [0; 1; 2]%Z /\
  fst (addEntity [] (fst before)) = 3%Z /\
  Forall (fun old => (old < 3)%Z) (snd before).
Proof.
  cbv zeta.
  assert (Hlt : (Z.of_nat (length (snd (exec_all
             [CallAddEntity [comp "body" 1]; CallRemoveEntity 0%Z;
              CallAddEntity []; CallClearEntities; CallAddEntity [];
              CallClear] (createApp (Payload := Z) tt)))) < MAX_EXACT)%Z)
    by (vm_compute; reflexivity).
  destruct (@addEntity_id_is_fresh Z unit tt
              [CallAddEntity [comp "body" 1]; CallRemoveEntity 0%Z;
               CallAddEntity []; CallClearEntities; CallAddEntity [];
               CallClear] [] Hlt) as [Hall _].
  split; [exact Hlt|]. split; [reflexivity|]. split; [reflexivity|].
  exact Hall.
Defined.

(** * More about the component store *)

Lemma set_has_In (x : Entity) (s : list Entity) :
  JsSet.has x s = true <-> In x s.
Proof.
  unfold JsSet.has. rewrite existsb_exists. split.
  - intros [y [Hin Heq]]. apply same_spec in Heq. now subst.
  - intros Hin. exists x. split; [assumption | apply same_refl].
Qed.

Lemma set_add_In (x y : Entity) (s : list Entity) :
  In y (JsSet.add x s) <-> y = x \/ In y s.
Proof.
  unfold JsSet.add. destruct (JsSet.has x s) eqn:Hh.
  - apply set_has_In in Hh. split; [auto | intros [-> | H]; auto].
  - rewrite in_app_iff. simpl. intuition.
Qed.

Section KeysFacts.
Context {K V : Type} `{SameValueZero K}.
Implicit Types (m : JsMap.t K V) (k : K) (v : V).

Lemma map_keys_delete k m :
  JsMap.keys (JsMap.delete k m) =
  filter (fun k' => negb (same k k')) (JsMap.keys m).
Proof.
  unfold JsMap.delete, JsMap.keys.
  induction m as [|[k' v'] r IH]; [reflexivity|].
  cbn [filter map fst]. destruct (same k k'); cbn [negb map fst]; now rewrite IH.
Qed.

Lemma map_delete_set_absent k v m :
  JsMap.has k m = false -> JsMap.delete k (JsMap.set k v m) = m.
Proof.
  unfold JsMap.delete.
  induction m as [|[k' v'] r IH]; cbn [JsMap.set JsMap.has filter fst].
  - now rewrite same_refl.
  - destruct (same k k') eqn:E; [discriminate|].
    intros Hh. cbn [filter fst]. rewrite E. cbn [negb]. now rewrite IH.
Qed.

Lemma map_mutate_mutate k (f g : V -> V) m :
  JsMap.mutate k g (JsMap.mutate k f m) = JsMap.mutate k (fun v => g (f v)) m.
Proof.
  induction m as [|[k' v'] r IH]; [reflexivity|].
  cbn [JsMap.mutate]. destruct (same k k') eqn:E; cbn [JsMap.mutate];
    rewrite E; [reflexivity | now rewrite IH].
Qed.

End KeysFacts.

Section StoreExtras.
Context {Payload Resources : Type}.
Implicit Types (app : @App Payload Resources) (e : Entity).
Implicit Types (c : @Component Payload) (T : string).
Implicit Types (comps : list (@Component Payload)).

Lemma getComponent_addComponents_other comps (id : Entity) :
  forall app e' T,
    e' <> id \/ ~ In T (map (@type Payload) comps) ->
    getComponent (fold_left (fun a c => addComponent id c a) comps app) e' T =
    getComponent app e' T.
Proof.
  induction comps as [|c comps IH]; intros app e' T Hne; cbn [fold_left];
    [reflexivity|].
  rewrite IH.
  - apply getComponent_addComponent_other.
    destruct Hne as [Hne | Hnin]; [now left|].
    right. intros ->. apply Hnin. now left.
  - destruct Hne as [Hne | Hnin]; [now left|].
    right. intros Hin. apply Hnin. now right.
Qed.

Lemma entities_addComponents comps (id : Entity) :
  forall app,
    entities (fold_left (fun a c => addComponent id c a) comps app) =
    entities app.
Proof.
  induction comps as [|c comps IH]; intros app; cbn [fold_left];
    [reflexivity|].
  rewrite IH. apply fields_addComponent.
Qed.

(** X1.  [addEntity(components)] returns the current counter value, puts it
    into the registry (after the ids already there, when it is new) and
    attaches the listed components to it; of two listed components with the
    same type tag the later one stays.  Components of other ids are not
    touched, and neither is a component that the store already held under
    the returned id for a type that is not listed. *)
Theorem addEntity_registers_and_attaches app comps :
  let id := fst (addEntity comps app) in
  let app' := snd (addEntity comps app) in
  id = nextId app /\
  In id (getEntities app') /\
  (forall e, In e (getEntities app) -> In e (getEntities app')) /\
  (~ In id (getEntities app) -> getEntities app' = getEntities app ++ [id]) /\
  (forall e' T, e' <> id -> getComponent app' e' T = getComponent app e' T) /\
  (forall l1 c l2,
     comps = l1 ++ c :: l2 -> ~ In (type c) (map (@type Payload) l2) ->
     getComponent app' id (type c) = Some c) /\
  (forall T, ~ In T (map (@type Payload) comps) ->
     getComponent app' id T = getComponent app id T).
Proof.
  cbv zeta. unfold addEntity. cbn [fst snd].
  set (a0 := with_entities _ _).
  assert (Hent : getEntities (fold_left (fun a c => addComponent (nextId app) c a) comps a0) =
                 JsSet.add (nextId app) (entities app)).
  { unfold getEntities. now rewrite entities_addComponents. }
  split; [reflexivity|]. rewrite Hent.
  split; [apply set_add_In; now left|].
  split; [intros e He; apply set_add_In; now right|].
  split.
  { intros Hnin. unfold JsSet.add.
    destruct (JsSet.has (nextId app) (entities app)) eqn:Hh; [|reflexivity].
    apply set_has_In in Hh. contradiction. }
  split.
  { intros e' T Hne. rewrite getComponent_addComponents_other by now left.
    reflexivity. }
  split.
  { intros l1 c l2 -> Hnin. rewrite fold_left_app. cbn [fold_left].
    rewrite getComponent_addComponents_other by now right.
    apply getComponent_addComponent_same. }
  intros T Hnin. rewrite getComponent_addComponents_other by now right.
  reflexivity.
Qed.

Lemma anchor_keys_addComponent_other app e c T :
  T <> type c -> anchor_keys (addComponent e c app) T = anchor_keys app T.
Proof.
  intros Hne. unfold anchor_keys. rewrite components_addComponent.
  rewrite map_get_mutate_other by assumption.
  now rewrite ensure_submap_other.
Qed.

Lemma anchor_keys_addComponent_same app e c :
  anchor_keys (addComponent e c app) (type c) =
  if hasComponent app e (type c)
  then anchor_keys app (type c)
  else anchor_keys app (type c) ++ [e].
Proof.
  unfold anchor_keys, hasComponent. rewrite components_addComponent.
  rewrite map_get_mutate_same.
  destruct (ensure_submap_get (type c) (components app)) as [m [Hm [Hnone Hsome]]].
  rewrite Hm. cbn [option_map]. rewrite map_keys_set.
  destruct (JsMap.get (type c) (components app)) as [m0|].
  - rewrite (Hsome m0 eq_refl). reflexivity.
  - rewrite Hnone by reflexivity. reflexivity.
Qed.

(** X2.  [addComponent(entity, component)] changes no lookup but the one for
    that entity and that type tag.  In the iteration order of the tag's
    sub-map, which is the order of query results anchored on the tag, an
    entity whose component is replaced keeps its place and an entity that
    gets its first component of the type goes last; the order under every
    other tag stays. *)
Theorem addComponent_frame_and_order app e c :
  let app' := addComponent e c app in
  (forall e' T, e' <> e \/ T <> type c ->
     getComponent app' e' T = getComponent app e' T) /\
  (hasComponent app e (type c) = true ->
     anchor_keys app' (type c) = anchor_keys app (type c)) /\
  (hasComponent app e (type c) = false ->
     anchor_keys app' (type c) = anchor_keys app (type c) ++ [e]) /\
  (forall T, T <> type c -> anchor_keys app' T = anchor_keys app T).
Proof.
  cbv zeta. split; [|split; [|split]].
  - intros e' T. apply getComponent_addComponent_other.
  - intros Hh. now rewrite anchor_keys_addComponent_same, Hh.
  - intros Hh. now rewrite anchor_keys_addComponent_same, Hh.
  - intros T. apply anchor_keys_addComponent_other.
Qed.

Lemma getComponent_removeComponent_same app e T :
  getComponent (removeComponent e T app) e T = None.
Proof.
  unfold getComponent. rewrite removeComponent_components.
  rewrite map_get_mutate_same.
  destruct (JsMap.get T (components app)); [|reflexivity].
  cbn [option_map]. apply map_get_delete_same.
Qed.

Lemma anchor_keys_removeComponent app e T T' :
  anchor_keys (removeComponent e T app) T' =
  if String.eqb T' T
  then filter (fun e' => negb (Z.eqb e e')) (anchor_keys app T')
  else anchor_keys app T'.
Proof.
  unfold anchor_keys. rewrite removeComponent_components.
  destruct (String.eqb_spec T' T) as [-> | Hne].
  - rewrite map_get_mutate_same.
    destruct (JsMap.get T (components app)) as [m|]; [|reflexivity].
    cbn [option_map]. exact (@map_keys_delete _ _ same_number e m).
  - now rewrite map_get_mutate_other.
Qed.

(** X3.  [removeComponent(entity, type)] leaves the entity without a
    component of that type and changes no other lookup; the registry stays,
    the sub-map of the type stays in the store even when it becomes empty,
    and the other entities of the sub-map keep their order. *)
Theorem removeComponent_removes app e T :
  let app' := removeComponent e T app in
  getComponent app' e T = None /\
  hasComponent app' e T = false /\
  (forall e' T', e' <> e \/ T' <> T ->
     getComponent app' e' T' = getComponent app e' T' /\
     hasComponent app' e' T' = hasComponent app e' T') /\
  getEntities app' = getEntities app /\
  JsMap.keys (components app') = JsMap.keys (components app) /\
  anchor_keys app' T = filter (fun e' => negb (Z.eqb e e')) (anchor_keys app T) /\
  (forall T', T' <> T -> anchor_keys app' T' = anchor_keys app T').
Proof.
  cbv zeta. split; [apply getComponent_removeComponent_same|].
  split.
  { rewrite hasComponent_getComponent.
    now rewrite getComponent_removeComponent_same. }
  split.
  { intros e' T' Hne. rewrite !hasComponent_getComponent.
    now rewrite getComponent_removeComponent. }
  split; [apply fields_removeComponent|].
  split.
  { rewrite removeComponent_components. apply map_keys_mutate. }
  split.
  { rewrite anchor_keys_removeComponent. now rewrite String.eqb_refl. }
  intros T' Hne. rewrite anchor_keys_removeComponent.
  apply String.eqb_neq in Hne. now rewrite Hne.
Qed.

(** X4.  Removing the same component a second time changes nothing: the
    state after two [removeComponent(entity, type)] calls is the state after
    one. *)
Theorem removeComponent_idempotent app e T :
  removeComponent e T (removeComponent e T app) = removeComponent e T app.
Proof.
  apply removeComponent_absent. rewrite hasComponent_getComponent.
  now rewrite getComponent_removeComponent_same.
Qed.

(** X5.  Removing the same entity a second time changes nothing: the state
    after two [removeEntity(entity)] calls is the state after one. *)
Theorem removeEntity_idempotent app e :
  removeEntity e (removeEntity e app) = removeEntity e app.
Proof.
  apply removeEntity_absent.
  - rewrite entities_removeEntity. intros Hin.
    apply set_delete_In in Hin. tauto.
  - intros T. rewrite hasComponent_getComponent, getComponent_removeEntity.
    now rewrite Z.eqb_refl.
Qed.

(** X6.  When the entity has no component of the component's type,
    [addComponent] followed by [removeComponent] of that type brings every
    lookup back to what it was; the state itself comes back exactly when the
    store already had a sub-map for the type, otherwise an empty sub-map
    stays behind. *)
Theorem addComponent_then_removeComponent app e c :
  hasComponent app e (type c) = false ->
  let app' := removeComponent e (type c) (addComponent e c app) in
  (forall e' T, getComponent app' e' T = getComponent app e' T) /\
  (forall m, JsMap.get (type c) (components app) = Some m -> app' = app) /\
  (JsMap.get (type c) (components app) = None ->
   JsMap.get (type c) (components app') = Some JsMap.empty).
Proof.
  intros Hno. cbv zeta. split; [|split].
  - intros e' T.
    destruct (Z.eq_dec e' e) as [-> | He].
    + destruct (string_dec T (type c)) as [-> | HT].
      * rewrite getComponent_removeComponent_same.
        rewrite hasComponent_getComponent in Hno.
        now destruct (getComponent app e (type c)).
      * rewrite getComponent_removeComponent by now right.
        apply getComponent_addComponent_other. now right.
    + rewrite getComponent_removeComponent by now left.
      apply getComponent_addComponent_other. now left.
  - intros m Hm.
    assert (Heq : components (removeComponent e (type c) (addComponent e c app)) =
                  components app).
    { rewrite removeComponent_components, components_addComponent.
      unfold ensure_submap. rewrite map_has_get, Hm. cbn [negb].
      rewrite map_mutate_mutate. apply map_mutate_id.
      intros m' Hm'. rewrite Hm in Hm'. injection Hm' as <-.
      apply map_delete_set_absent.
      unfold hasComponent in Hno. now rewrite Hm in Hno. }
    unfold removeComponent in *. unfold addComponent in *.
    destruct (ensure_submap_get (type c) (components app)) as [m1 [Hm1 _]].
    rewrite Hm1 in *. cbn [components with_components] in *.
    rewrite map_get_mutate_same, Hm1 in *. cbn [option_map] in *.
    cbn [with_components entities components arrays startupSystems systems
         nextId resources running] in *.
    destruct app; cbn in *. now rewrite Heq.
  - intros Hnone. rewrite removeComponent_components, components_addComponent.
    rewrite map_mutate_mutate, map_get_mutate_same.
    destruct (ensure_submap_get (type c) (components app)) as [m [Hm [Hm0 _]]].
    rewrite Hm, (Hm0 Hnone). cbn [option_map].
    now rewrite map_delete_set_absent.
Qed.

(** X7.  When the counter value is not in the registry and has no component
    in the store, [addEntity] followed by [removeEntity] of the returned id
    brings the registry and every lookup back to what they were; the counter
    has moved on all the same. *)
Theorem addEntity_then_removeEntity app comps :
  ~ In (nextId app) (getEntities app) ->
  (forall T, hasComponent app (nextId app) T = false) ->
  let id := fst (addEntity comps app) in
  let app' := removeEntity id (snd (addEntity comps app)) in
  getEntities app' = getEntities app /\
  (forall e T, getComponent app' e T = getComponent app e T) /\
  nextId app' = number_succ (nextId app).
Proof.
  intros Hnin Hno. cbv zeta. unfold addEntity. cbn [fst snd].
  split; [|split].
  - rewrite entities_removeEntity. unfold getEntities.
    rewrite entities_addComponents. cbn [entities with_entities with_nextId].
    unfold JsSet.add.
    destruct (JsSet.has (nextId app) (entities app)) eqn:Hh.
    + apply set_has_In in Hh. contradiction.
    + unfold JsSet.delete. rewrite filter_app. cbn [filter].
      rewrite same_refl. cbn [negb]. rewrite app_nil_r.
      now apply set_delete_absent.
  - intros e T. rewrite getComponent_removeEntity.
    destruct (Z.eqb_spec e (nextId app)) as [-> | Hne].
    + specialize (Hno T). rewrite hasComponent_getComponent in Hno.
      now destruct (getComponent app (nextId app) T).
    + rewrite getComponent_addComponents_other by now left. reflexivity.
  - rewrite nextId_removeEntity, nextId_addComponents. reflexivity.
Qed.

End StoreExtras.

(** * More about queries *)

Section QueryExtras.
Context {Payload Resources : Type}.
Implicit Types (app : @App Payload Resources) (e : Entity).
Implicit Types (c : @Component Payload) (T : string) (ts : list string).
Implicit Types (h : @Heap Payload).


(** X9.  [queryIter] makes one array, whatever the number of matches, and
    leaves the arrays that existed before as they are; every value it yields
    is that one array.  So the collected values are as many copies of one
    address as [query] has tuples, and after the run they all read as the
    tuple of the last match. *)
Theorem queryIter_reuses_one_buffer app (t0 : string) ts h :
  let collected := fst (Array_from_queryIter app t0 ts h) in
  let h' := snd (Array_from_queryIter app t0 ts h) in
  length h' = length h + 1 /\
  firstn (length h) h' = h /\
  collected = repeat (length h) (length (fst (query app t0 ts h))) /\
  contents h' collected =
    repeat (last (contents (snd (query app t0 ts h)) (fst (query app t0 ts h)))
              (new_Array (length (t0 :: ts) + 1)))
      (length collected).
Proof.
  cbv zeta.
  destruct (Array_from_queryIter_aliases app t0 ts h) as [Hfst Hcont].
  rewrite Hcont, Hfst, query_contents, repeat_length.
  rewrite query_spec. cbn [fst]. rewrite length_seq.
  unfold Array_from_queryIter. rewrite queryIter_spec. cbn [snd].
  split; [rewrite length_app; reflexivity|].
  split; [|split; reflexivity].
  rewrite firstn_app, Nat.sub_diag, firstn_all. cbn [firstn]. apply app_nil_r.
Qed.

Lemma tuple_entity_tuple_of app (types : list string) e :
  tuple_entity (tuple_of app types e) = Some e.
Proof. unfold tuple_entity, tuple_of. now rewrite last_last. Qed.



(** Two stores that agree on the key order of the anchor sub-map and on the
    lookups for the listed types give the same query result. *)
Lemma query_ext app app' (t0 : string) ts h :
  anchor_keys app' t0 = anchor_keys app t0 ->
  (forall e t, In t (t0 :: ts) -> getComponent app' e t = getComponent app e t) ->
  query app' t0 ts h = query app t0 ts h.
Proof.
  intros Hkeys Hget. rewrite !query_spec.
  assert (Hm : matching app' t0 ts = matching app t0 ts).
  { unfold matching. rewrite Hkeys. apply filter_ext. intros e.
    rewrite !checkRemainingComponents_tail.
    induction ts as [|t ts IH]; [reflexivity|].
    cbn [forallb]. rewrite !hasComponent_getComponent.
    rewrite Hget by (right; now left).
    f_equal. apply IH. intros e' t' [<- | Hin].
    - apply Hget. now left.
    - apply Hget. right. now right. }
  rewrite Hm. f_equal. f_equal. apply map_ext. intros e.
  unfold tuple_of. f_equal. apply map_ext_in. intros t Ht. now rewrite Hget.
Qed.

(** X11.  A query does not see components of types it does not list: adding,
    replacing or removing a component of a type tag that is not in the list
    leaves the result of the query as it was. *)
Theorem query_ignores_unlisted_types app (t0 : string) ts h T :
  ~ In T (t0 :: ts) ->
  (forall e c, type c = T ->
     query (addComponent e c app) t0 ts h = query app t0 ts h) /\
  (forall e, query (removeComponent e T app) t0 ts h = query app t0 ts h).
Proof.
  intros Hnin. split.
  - intros e c <-. apply query_ext.
    + apply anchor_keys_addComponent_other. intros ->. apply Hnin. now left.
    + intros e' t Ht. apply getComponent_addComponent_other.
      right. intros ->. contradiction.
  - intros e. apply query_ext.
    + rewrite anchor_keys_removeComponent.
      destruct (String.eqb_spec t0 T) as [-> | Hne]; [|reflexivity].
      exfalso. apply Hnin. now left.
    + intros e' t Ht. apply getComponent_removeComponent.
      right. intros ->. contradiction.
Qed.

Lemma anchor_keys_removeEntity app e T :
  anchor_keys (removeEntity e app) T =
  filter (fun e' => negb (Z.eqb e e')) (anchor_keys app T).
Proof.
  unfold anchor_keys. rewrite removeEntity_get.
  destruct (JsMap.get T (components app)) as [m|]; [|reflexivity].
  cbn [option_map]. exact (@map_keys_delete _ _ same_number e m).
Qed.

Lemma forallb_pointwise {A : Type} (f g : A -> bool) (l : list A) :
  (forall x, f x = g x) -> forallb f l = forallb g l.
Proof.
  intros Hfg. induction l as [|x l IH]; [reflexivity|].
  cbn [forallb]. now rewrite Hfg, IH.
Qed.

Lemma filter_swap {A : Type} (p q q' : A -> bool) (l : list A) :
  (forall x, p x = true -> q' x = q x) ->
  filter q' (filter p l) = filter p (filter q l).
Proof.
  intros Hq. induction l as [|x l IH]; [reflexivity|].
  cbn [filter]. destruct (p x) eqn:Hp.
  - cbn [filter]. rewrite (Hq x Hp). destruct (q x); cbn [filter].
    + now rewrite Hp, IH.
    + exact IH.
  - destruct (q x); cbn [filter]; [rewrite Hp|]; exact IH.
Qed.

(** X12.  After [removeEntity(e)] a query returns what it returned before
    without the tuple of [e]: the other tuples are the same and in the same
    order. *)
Theorem query_after_removeEntity app e (t0 : string) ts h :
  let before := contents (snd (query app t0 ts h)) (fst (query app t0 ts h)) in
  let after :=
    contents (snd (query (removeEntity e app) t0 ts h))
      (fst (query (removeEntity e app) t0 ts h)) in
  after = filter (fun tuple =>
                    match tuple_entity tuple with
                    | Some e' => negb (Z.eqb e e')
                    | None => true
                    end) before.
Proof.
  cbv zeta. rewrite !query_contents.
  assert (Hm : matching (removeEntity e app) t0 ts =
               filter (fun e' => negb (Z.eqb e e')) (matching app t0 ts)).
  { unfold matching. rewrite anchor_keys_removeEntity.
    apply filter_swap. intros e' He'.
    rewrite !checkRemainingComponents_tail.
    apply forallb_pointwise. intros t.
    rewrite !hasComponent_getComponent, getComponent_removeEntity.
    apply negb_true_iff in He'. rewrite Z.eqb_sym in He'. now rewrite He'. }
  rewrite Hm. clear Hm.
  induction (matching app t0 ts) as [|e' l IH]; [reflexivity|].
  cbn [filter map]. rewrite tuple_entity_tuple_of.
  destruct (Z.eqb_spec e e') as [-> | Hne]; cbn [negb map].
  - exact IH.
  - rewrite IH. f_equal. unfold tuple_of. f_equal.
    apply map_ext. intros t. rewrite getComponent_removeEntity.
    assert (Hb : Z.eqb e' e = false) by (apply Z.eqb_neq; congruence).
    now rewrite Hb.
Qed.

End QueryExtras.

(** * What every history of calls keeps *)

Lemma set_add_NoDup (x : Entity) (s : list Entity) :
  NoDup s -> NoDup (JsSet.add x s).
Proof.
  intros Hnd. unfold JsSet.add. destruct (JsSet.has x s) eqn:Hh; [assumption|].
  apply NoDup_app; [assumption | repeat constructor; simpl; tauto |].
  intros y Hy [<- | []]. apply set_has_In in Hy. congruence.
Qed.

Section ArrayFacts.
Implicit Types (ars : list (list SystemRef)) (p q : Addr).
Implicit Types (f : list SystemRef -> list SystemRef).

Lemma array_update_length p f ars : length (array_update p f ars) = length ars.
Proof.
  revert p. induction ars as [|a ars IH]; intros [|p]; cbn; auto.
Qed.

Lemma array_update_same p f ars :
  p < length ars -> nth p (array_update p f ars) [] = f (nth p ars []).
Proof.
  revert p. induction ars as [|a ars IH]; intros [|p] Hp; cbn in *; try lia.
  - reflexivity.
  - apply IH. lia.
Qed.

Lemma array_update_other p q f ars :
  q <> p -> nth q (array_update p f ars) [] = nth q ars [].
Proof.
  revert p q. induction ars as [|a ars IH]; intros [|p] [|q] Hne; cbn;
    try reflexivity; try congruence.
  apply IH. congruence.
Qed.

Lemma array_update_id p f ars :
  f (nth p ars []) = nth p ars [] -> array_update p f ars = ars.
Proof.
  revert p. induction ars as [|a ars IH]; intros [|p] Hf; cbn in *;
    try reflexivity.
  - now rewrite Hf.
  - now rewrite IH.
Qed.

Lemma splice_first_absent (s : SystemRef) (l : list SystemRef) :
  ~ In s l -> splice_first s l = l.
Proof.
  induction l as [|x l IH]; intros Hnin; [reflexivity|].
  cbn [splice_first]. destruct (Nat.eqb_spec x s) as [-> | Hne].
  - exfalso. apply Hnin. now left.
  - rewrite IH; [reflexivity|]. intros Hin. apply Hnin. now right.
Qed.

Lemma splice_first_split (s : SystemRef) (l1 l2 : list SystemRef) :
  ~ In s l1 -> splice_first s (l1 ++ s :: l2) = l1 ++ l2.
Proof.
  induction l1 as [|x l1 IH]; intros Hnin; cbn [splice_first List.app].
  - now rewrite Nat.eqb_refl.
  - destruct (Nat.eqb_spec x s) as [-> | Hne].
    + exfalso. apply Hnin. now left.
    + rewrite IH; [reflexivity|]. intros Hin. apply Hnin. now right.
Qed.

End ArrayFacts.

Section Histories.
Context {Payload Resources : Type}.
Implicit Types (app : @App Payload Resources) (e : Entity).
Implicit Types (calls : list (@Call Payload)).

Lemma registry_ok_createApp (r : Resources) :
  registry_ok (createApp (Payload := Payload) r).
Proof. unfold registry_ok. cbn. lia. Qed.

Lemma registry_ok_same app app' :
  arrays app' = arrays app -> systems app' = systems app ->
  startupSystems app' = startupSystems app ->
  registry_ok app -> registry_ok app'.
Proof. unfold registry_ok. now intros -> -> ->. Qed.

Lemma registry_ok_with_arrays app (p : Addr)
  (f : list SystemRef -> list SystemRef) :
  registry_ok app ->
  registry_ok (with_arrays (array_update p f (arrays app)) app).
Proof.
  unfold registry_ok. cbn [arrays systems startupSystems with_arrays].
  now rewrite array_update_length.
Qed.

Lemma registry_ok_clearSystems app : registry_ok (clearSystems app).
Proof.
  unfold registry_ok, clearSystems. cbn [arrays systems startupSystems].
  rewrite length_app. cbn [length]. lia.
Qed.

Lemma fields_addComponents (comps : list (@Component Payload)) (id : Entity) :
  forall app,
    let app' := fold_left (fun a c => addComponent id c a) comps app in
    arrays app' = arrays app /\
    systems app' = systems app /\
    startupSystems app' = startupSystems app /\
    running app' = running app /\
    entities app' = entities app.
Proof.
  induction comps as [|c comps IH]; intros app; cbv zeta; cbn [fold_left];
    [repeat split|].
  destruct (IH (addComponent id c app)) as [I1 [I2 [I3 [I4 I5]]]].
  destruct (fields_addComponent app id c) as [F1 [F2 [F3 [F4 [F5 [F6 F7]]]]]].
  repeat split; congruence.
Qed.

Lemma fields_addEntity (comps : list (@Component Payload)) app :
  arrays (snd (addEntity comps app)) = arrays app /\
  systems (snd (addEntity comps app)) = systems app /\
  startupSystems (snd (addEntity comps app)) = startupSystems app /\
  running (snd (addEntity comps app)) = running app /\
  entities (snd (addEntity comps app)) = JsSet.add (nextId app) (entities app).
Proof.
  unfold addEntity. cbn [snd].
  set (a0 := with_entities _ _).
  destruct (fields_addComponents comps (nextId app) a0) as [I1 [I2 [I3 [I4 I5]]]].
  repeat split; assumption.
Qed.

Lemma fields_removeEntity app e :
  arrays (removeEntity e app) = arrays app /\
  systems (removeEntity e app) = systems app /\
  startupSystems (removeEntity e app) = startupSystems app /\
  running (removeEntity e app) = running app.
Proof. rewrite removeEntity_unfold. repeat split. Qed.

Lemma registry_ok_exec (call : @Call Payload) app :
  registry_ok app -> registry_ok (fst (exec call app)).
Proof.
  intros Hok. destruct call; unfold exec; cbn [fst].
  - pose proof (fields_addEntity comps app) as [H1 [H2 [H3 _]]].
    destruct (addEntity comps app) as [id app']. cbn [fst snd] in *.
    eapply registry_ok_same; [exact H1 | exact H2 | exact H3 | exact Hok].
  - destruct (fields_addComponent app entity component)
      as [_ [_ [H1 [H2 [H3 _]]]]].
    eapply registry_ok_same; [exact H1 | exact H2 | exact H3 | exact Hok].
  - destruct (fields_removeComponent app entity componentType)
      as [_ [_ [H1 [H2 [H3 _]]]]].
    eapply registry_ok_same; [exact H1 | exact H2 | exact H3 | exact Hok].
  - destruct (fields_removeEntity app entity) as [H1 [H2 [H3 _]]].
    eapply registry_ok_same; [exact H1 | exact H2 | exact H3 | exact Hok].
  - exact Hok.
  - apply registry_ok_clearSystems.
  - apply registry_ok_clearSystems.
  - now apply registry_ok_with_arrays.
  - now apply registry_ok_with_arrays.
  - now apply registry_ok_with_arrays.
  - exact Hok.
Qed.

Lemma nextId_bounds_succ (n : Z) :
  (0 <= n <= MAX_EXACT)%Z ->
  (0 <= number_succ n <= MAX_EXACT)%Z /\ (n <= number_succ n)%Z.
Proof.
  intros Hn. unfold number_succ.
  destruct (Z.ltb_spec n MAX_EXACT); lia.
Qed.

Lemma entities_exec (call : @Call Payload) app :
  (NoDup (entities app) -> NoDup (entities (fst (exec call app)))) /\
  (forall e, In e (entities (fst (exec call app))) ->
             In e (entities app) \/ In e (snd (exec call app))).
Proof.
  destruct call; unfold exec; cbn [fst snd];
    try (split; [intros Hnd; exact Hnd | intros e He; now left]).
  - pose proof (fields_addEntity comps app) as [_ [_ [_ [_ Hent]]]].
    pose proof (addEntity_id comps app) as Hid.
    destruct (addEntity comps app) as [id app']. cbn [fst snd] in *.
    rewrite Hent. subst id. split.
    + apply set_add_NoDup.
    + intros e He. apply set_add_In in He as [-> | He]; [right | left]; auto.
      now left.
  - destruct (fields_addComponent app entity component) as [-> _].
    split; [auto | intros e He; now left].
  - destruct (fields_removeComponent app entity componentType) as [-> _].
    split; [auto | intros e He; now left].
  - change (entities (removeEntity entity app))
      with (getEntities (removeEntity entity app)).
    rewrite entities_removeEntity. unfold getEntities. split.
    + intros Hnd. now apply NoDup_filter.
    + intros e He. apply set_delete_In in He. left. tauto.
  - split; [intros _; constructor | intros e []].
  - split; [intros _; constructor | intros e []].
Qed.

Lemma history_keeps calls :
  forall app,
    registry_ok app -> store_ok app -> NoDup (entities app) ->
    (0 <= nextId app <= MAX_EXACT)%Z ->
    let app' := fst (exec_all calls app) in
    registry_ok app' /\ store_ok app' /\ NoDup (entities app') /\
    (0 <= nextId app' <= MAX_EXACT)%Z /\
    (nextId app <= nextId app')%Z /\
    (forall e, In e (entities app') ->
               In e (entities app) \/ In e (snd (exec_all calls app))).
Proof.
  induction calls as [|call calls IH]; intros app Hreg Hst Hnd Hb; cbv zeta.
  - cbn [exec_all fst snd].
    split; [assumption|]. split; [assumption|]. split; [assumption|].
    split; [assumption|]. split; [lia|]. intros e He. now left.
  - rewrite exec_all_cons. cbn [fst snd].
    destruct (entities_exec call app) as [Hnd1 Hin1].
    assert (Hb1 : (0 <= nextId (fst (exec call app)) <= MAX_EXACT)%Z /\
                  (nextId app <= nextId (fst (exec call app)))%Z).
    { destruct (exec_ids call app) as [[_ ->] | [_ ->]]; [lia|].
      now apply nextId_bounds_succ. }
    destruct (IH (fst (exec call app)))
      as [I1 [I2 [I3 [I4 [I5 I6]]]]]; auto.
    + now apply registry_ok_exec.
    + now apply store_ok_exec.
    + tauto.
    + split; [assumption|]. split; [assumption|]. split; [assumption|].
      split; [assumption|]. split; [lia|].
      intros e He. destruct (I6 e He) as [H1 | H2].
      * destruct (Hin1 e H1); [now left | right; apply in_or_app; now left].
      * right. apply in_or_app. now right.
Qed.

(** X13.  Whatever methods are called on a new application, in whatever
    order: the registry lists no id twice and only ids that [addEntity]
    returned; the counter is between 0 and 2^53; an entity has at most one
    component per type tag, stored under the tag that is its [type]; and the
    per-step and the startup systems are held in two different arrays. *)
Theorem every_history_keeps_the_store_sound (r : Resources) calls :
  let app := fst (exec_all calls (createApp r)) in
  let ids := snd (exec_all calls (createApp r)) in
  NoDup (getEntities app) /\
  (forall e, In e (getEntities app) -> In e ids) /\
  (0 <= nextId app <= MAX_EXACT)%Z /\
  (forall T, NoDup (anchor_keys app T)) /\
  (forall e T c, getComponent app e T = Some c -> type c = T) /\
  registry_ok app.
Proof.
  cbv zeta.
  destruct (@history_keeps calls (createApp r))
    as [I1 [I2 [I3 [I4 [_ I6]]]]].
  - apply registry_ok_createApp.
  - apply store_ok_createApp.
  - constructor.
  - cbn [nextId createApp]. unfold MAX_EXACT.
    split; [lia | apply Z.pow_nonneg; lia].
  - split; [exact I3|]. split.
    { intros e He. destruct (I6 e He) as [[] | H]. exact H. }
    split; [exact I4|]. split.
    { intros T. now apply anchor_keys_NoDup. }
    split; [|exact I1].
    intros e T c. now apply getComponent_tagged.
Qed.

Lemma systems_now_with_arrays app (p : Addr)
  (f : list SystemRef -> list SystemRef) :
  registry_ok app ->
  systems_now (with_arrays (array_update p f (arrays app)) app) =
    (if Nat.eqb p (systems app) then f (systems_now app) else systems_now app) /\
  startupSystems_now (with_arrays (array_update p f (arrays app)) app) =
    (if Nat.eqb p (startupSystems app) then f (startupSystems_now app)
     else startupSystems_now app).
Proof.
  intros [H1 [H2 H3]]. unfold systems_now, startupSystems_now.
  cbn [arrays systems startupSystems with_arrays]. split.
  - destruct (Nat.eqb_spec p (systems app)) as [-> | Hne].
    + now apply array_update_same.
    + apply array_update_other. congruence.
  - destruct (Nat.eqb_spec p (startupSystems app)) as [-> | Hne].
    + now apply array_update_same.
    + apply array_update_other. congruence.
Qed.

(** X14.  [addSystem] puts the system at the end of the per-step list and
    [addStartupSystem] at the end of the startup list; each leaves the other
    list alone, and a system that is added twice is listed twice. *)
Theorem addSystem_appends app (s : SystemRef) :
  registry_ok app ->
  systems_now (addSystem s app) = systems_now app ++ [s] /\
  startupSystems_now (addSystem s app) = startupSystems_now app /\
  startupSystems_now (addStartupSystem s app) = startupSystems_now app ++ [s] /\
  systems_now (addStartupSystem s app) = systems_now app /\
  systems_now (addSystem s (addSystem s app)) = systems_now app ++ [s; s].
Proof.
  intros Hok. pose proof Hok as [H1 [H2 H3]].
  assert (Hne : Nat.eqb (systems app) (startupSystems app) = false)
    by now apply Nat.eqb_neq.
  assert (Hne' : Nat.eqb (startupSystems app) (systems app) = false)
    by (apply Nat.eqb_neq; congruence).
  unfold addSystem, addStartupSystem.
  destruct (systems_now_with_arrays (systems app) (fun a => a ++ [s]) Hok)
    as [A1 A2].
  destruct (systems_now_with_arrays (startupSystems app) (fun a => a ++ [s]) Hok)
    as [B1 B2].
  rewrite Nat.eqb_refl in A1, B2. rewrite Hne in A2. rewrite Hne' in B1.
  split; [exact A1|]. split; [exact A2|]. split; [exact B2|].
  split; [exact B1|].
  assert (Hok' : registry_ok
            (with_arrays (array_update (systems app) (fun a => a ++ [s])
                            (arrays app)) app))
    by now apply registry_ok_with_arrays.
  destruct (systems_now_with_arrays
              (systems (with_arrays (array_update (systems app)
                                       (fun a => a ++ [s]) (arrays app)) app))
              (fun a => a ++ [s]) Hok') as [C1 _].
  rewrite Nat.eqb_refl in C1. cbn [systems with_arrays] in C1 |- *.
  rewrite C1, A1, <- app_assoc. reflexivity.
Qed.

(** X15.  [removeSystem(system, startup)] takes the first occurrence of the
    system out of the chosen list and leaves the rest of that list, in order,
    and the other list as they are; when the system is not in the chosen
    list the whole state stays as it is. *)
Theorem removeSystem_removes_first app (s : SystemRef) :
  registry_ok app ->
  (forall l1 l2, systems_now app = l1 ++ s :: l2 -> ~ In s l1 ->
     systems_now (removeSystem s false app) = l1 ++ l2 /\
     startupSystems_now (removeSystem s false app) = startupSystems_now app) /\
  (forall l1 l2, startupSystems_now app = l1 ++ s :: l2 -> ~ In s l1 ->
     startupSystems_now (removeSystem s true app) = l1 ++ l2 /\
     systems_now (removeSystem s true app) = systems_now app) /\
  (~ In s (systems_now app) -> removeSystem s false app = app) /\
  (~ In s (startupSystems_now app) -> removeSystem s true app = app).
Proof.
  intros Hok. pose proof Hok as [H1 [H2 H3]].
  assert (Hne : Nat.eqb (systems app) (startupSystems app) = false)
    by now apply Nat.eqb_neq.
  assert (Hne' : Nat.eqb (startupSystems app) (systems app) = false)
    by (apply Nat.eqb_neq; congruence).
  assert (Hsame : forall p, array_update p (splice_first s) (arrays app) =
                            arrays app ->
                  with_arrays (array_update p (splice_first s) (arrays app)) app
                  = app).
  { intros p ->. now destruct app. }
  unfold removeSystem.
  split; [|split; [|split]].
  - intros l1 l2 Hl Hnin.
    destruct (systems_now_with_arrays (systems app) (splice_first s) Hok)
      as [A1 A2].
    rewrite Nat.eqb_refl in A1. rewrite Hne in A2.
    rewrite A1, A2, Hl. split; [now apply splice_first_split | reflexivity].
  - intros l1 l2 Hl Hnin.
    destruct (systems_now_with_arrays (startupSystems app) (splice_first s) Hok)
      as [B1 B2].
    rewrite Nat.eqb_refl in B2. rewrite Hne' in B1.
    rewrite B1, B2, Hl. split; [now apply splice_first_split | reflexivity].
  - intros Hnin. apply Hsame. apply array_update_id.
    now apply splice_first_absent.
  - intros Hnin. apply Hsame. apply array_update_id.
    now apply splice_first_absent.
Qed.

End Histories.

(** * Systems that change the lists of systems while the scheduler runs *)

Section LiveLists.
Context {Payload Resources : Type}.
Implicit Types (app : @App Payload Resources).
Variable sem : SystemRef -> @System Payload Resources.



Lemma systems_now_clearSystems app : systems_now (clearSystems app) = [].
Proof.
  unfold systems_now, clearSystems. cbn [arrays systems].
  now rewrite nth_middle.
Qed.

Lemma startupSystems_now_clearSystems app :
  startupSystems_now (clearSystems app) = [].
Proof.
  unfold startupSystems_now, clearSystems. cbn [arrays startupSystems].
  rewrite app_nth2 by lia.
  replace (length (arrays app) + 1 - length (arrays app)) with 1 by lia.
  reflexivity.
Qed.




Lemma step_from_prefix (l1 : list SystemRef) :
  (forall t, In t l1 -> forall a, systems_now (sem t a) = systems_now a) ->
  forall (pre rest : list SystemRef) fuel app,
    systems_now app = pre ++ l1 ++ rest ->
    step_from sem (length l1 + fuel) (length pre) app =
    match step_from sem fuel (length pre + length l1)
            (fold_left (fun a t => sem t a) l1 app) with
    | Some (called, app') => Some (l1 ++ called, app')
    | None => None
    end.
Proof.
  induction l1 as [|x l1 IH]; intros Hkeep pre rest fuel app Hl.
  - cbn [length fold_left List.app Nat.add]. rewrite Nat.add_0_r.
    now destruct (step_from sem fuel (length pre) app) as [[called a]|].
  - cbn [length Nat.add step_from fold_left]. rewrite Hl.
    rewrite nth_error_app2 by lia. rewrite Nat.sub_diag. cbn [nth_error List.app].
    specialize (IH (fun t Ht => Hkeep t (or_intror Ht)) (pre ++ [x]) rest fuel
                  (sem x app)).
    rewrite length_app in IH. cbn [length] in IH.
    rewrite Nat.add_1_r in IH. rewrite IH.
    + replace (S (length pre) + length l1) with (length pre + S (length l1))
        by lia.
      destruct (step_from sem fuel (length pre + S (length l1))
                  (fold_left (fun a t => sem t a) l1 (sem x app)))
        as [[called a]|]; reflexivity.
    + rewrite Hkeep by now left. rewrite Hl. now rewrite <- app_assoc.
Qed.

(** X18.  A per-step system that calls [clearSystems()] ends the step: the
    systems registered before it have run, the ones registered after it are
    not called, because the loop goes on with the new, empty list. *)
Theorem step_ends_when_system_clears app (l1 l2 : list SystemRef)
  (s : SystemRef) fuel :
  systems_now app = l1 ++ s :: l2 ->
  (forall t, In t l1 -> forall a, systems_now (sem t a) = systems_now a) ->
  (forall a, sem s a = clearSystems a) ->
  length l1 + 1 < fuel ->
  step sem fuel app =
  Some (l1 ++ [s], clearSystems (fold_left (fun a t => sem t a) l1 app)).
Proof.
  intros Hl Hkeep Hs Hfuel. unfold step.
  replace fuel with (length l1 + S (S (fuel - length l1 - 2))) by lia.
  rewrite (@step_from_prefix l1 Hkeep [] (s :: l2) _ app Hl).
  cbn [length Nat.add step_from].
  assert (Hfold : systems_now (fold_left (fun a t => sem t a) l1 app) =
                  l1 ++ s :: l2).
  { apply (@fold_sem_keeps _ _ sem (fun a => systems_now a = l1 ++ s :: l2));
      [|assumption].
    intros t Ht a Ha. now rewrite Hkeep. }
  rewrite Hfold. rewrite nth_error_app2 by lia. rewrite Nat.sub_diag.
  cbn [nth_error]. rewrite Hs, systems_now_clearSystems.
  destruct (length l1); reflexivity.
Qed.

End LiveLists.

Section RunFacts.
Context {Payload Resources : Type}.
Implicit Types (app : @App Payload Resources).
Variable sem : SystemRef -> @System Payload Resources.

(** [forEach] only depends on the array it was started on. *)
Lemma forEach_from_fixed (arr : Addr) (l : list SystemRef) :
  (forall t, In t l -> forall a,
     nth arr (arrays a) [] = l -> nth arr (arrays (sem t a)) [] = l) ->
  forall n k app,
    nth arr (arrays app) [] = l ->
    length l <= k + n ->
    forEach_from sem n k arr app =
    (skipn k l, fold_left (fun a t => sem t a) (skipn k l) app).
Proof.
  intros Hkeep. induction n as [|n IH]; intros k app Hl Hn;
    cbn [forEach_from].
  - rewrite skipn_all2 by lia. reflexivity.
  - rewrite Hl. destruct (nth_error l k) as [t|] eqn:Ht.
    + assert (Hin : In t l) by (eapply nth_error_In; eauto).
      rewrite (IH (S k) (sem t app)) by (auto; lia).
      now rewrite (skipn_nth_error _ _ Ht).
    + rewrite (IH (S k) app) by (auto; lia).
      rewrite (skipn_past _ _ Ht).
      rewrite skipn_all2; [reflexivity|].
      apply nth_error_None in Ht. lia.
Qed.

(** X19.  A startup system that calls [clearSystems()] during [run()] does
    not stop the startup systems registered after it: [forEach] goes on with
    the array it was started on.  When the other startup systems leave the
    lists of systems alone, [run()] calls every startup system of the old
    list, in order, and then no per-step system at all, since both lists of
    the application are new and empty. *)
Theorem run_goes_on_after_clearSystems app (l1 l2 : list SystemRef)
  (s : SystemRef) fuel :
  startupSystems_now app = l1 ++ s :: l2 ->
  (forall a, sem s a = clearSystems a) ->
  (forall t, In t (l1 ++ l2) -> forall a,
     arrays (sem t a) = arrays a /\
     systems (sem t a) = systems a /\
     startupSystems (sem t a) = startupSystems a) ->
  0 < fuel ->
  exists app1 raf,
    run sem fuel app = Some (l1 ++ s :: l2, app1, raf) /\
    systems_now app1 = [] /\
    startupSystems_now app1 = [].
Proof.
  intros Hl Hs Hothers Hfuel. unfold run. cbv zeta.
  set (app0 := with_running true app).
  assert (Hl0 : nth (startupSystems app0) (arrays app0) [] = l1 ++ s :: l2)
    by exact Hl.
  assert (Hvalid : forall a : @App Payload Resources,
            nth (startupSystems app0) (arrays a) [] = l1 ++ s :: l2 ->
            startupSystems app0 < length (arrays a)).
  { intros a Ha.
    destruct (Nat.lt_ge_cases (startupSystems app0) (length (arrays a)))
      as [Hlt | Hge]; [assumption|].
    rewrite nth_overflow in Ha by assumption.
    destruct l1; discriminate. }
  rewrite (@forEach_from_fixed (startupSystems app0) (l1 ++ s :: l2)).
  - cbn [skipn].
    set (app2 := fold_left (fun a t => sem t a) (l1 ++ s :: l2) app0).
    assert (Hempty : systems_now app2 = [] /\ startupSystems_now app2 = []).
    { unfold app2. rewrite fold_left_app. cbn [fold_left]. rewrite Hs.
      apply (@fold_sem_keeps _ _ sem
               (fun a => systems_now a = [] /\ startupSystems_now a = [])).
      - intros t Ht a [H1 H2].
        destruct (Hothers t (in_or_app _ _ _ (or_intror Ht)) a)
          as [Ha [Hb Hc]].
        unfold systems_now, startupSystems_now in *.
        now rewrite Ha, Hb, Hc.
      - split; [apply systems_now_clearSystems
               | apply startupSystems_now_clearSystems]. }
    destruct Hempty as [He1 He2].
    unfold loop. destruct (running app2).
    + unfold step. destruct fuel as [|fuel]; [lia|].
      cbn [step_from]. rewrite He1. cbn [nth_error].
      exists app2, true. rewrite app_nil_r. now repeat split.
    + exists app2, false. rewrite app_nil_r. now repeat split.
  - intros t Ht a Ha. apply in_app_or in Ht as [Ht | [<- | Ht]].
    + destruct (Hothers t (in_or_app _ _ _ (or_introl Ht)) a) as [-> _].
      exact Ha.
    + rewrite Hs. unfold clearSystems. cbn [arrays].
      rewrite app_nth1 by now apply Hvalid. exact Ha.
    + destruct (Hothers t (in_or_app _ _ _ (or_intror Ht)) a) as [-> _].
      exact Ha.
  - exact Hl0.
  - rewrite Hl0. lia.
Qed.

(** X20.  [stop()] called by a system does not cut the step short: a tick of
    a running application calls every per-step system (as long as they leave
    the per-step list alone) and asks the host for another frame whatever
    the systems did to the flag; when the flag is off after that, the next
    tick calls nothing and asks for no further frame. *)
Theorem stop_takes_effect_at_the_next_tick app fuel :
  running app = true ->
  (forall s, In s (systems_now app) ->
             forall a, systems_now (sem s a) = systems_now a) ->
  length (systems_now app) < fuel ->
  let app' := fold_left (fun a s => sem s a) (systems_now app) app in
  loop sem fuel app = Some (systems_now app, app', true) /\
  (running app' = false -> loop sem fuel app' = Some ([], app', false)).
Proof.
  intros Hrun Hkeep Hfuel. cbv zeta. split.
  - unfold loop. rewrite Hrun. now rewrite step_stable.
  - intros Hoff. unfold loop. now rewrite Hoff.
Qed.

End RunFacts.

(** * Composing systems, clearing, and making components *)

Section Composition.
Context {Payload Resources : Type}.
Implicit Types (app : @App Payload Resources).

Lemma combineSystems_fold (systems : list (@System Payload Resources)) app :
  combineSystems systems app = fold_left (fun a s => s a) systems app.
Proof. unfold combineSystems. now rewrite combine_from_spec by lia. Qed.

(** X21.  Combined systems nest: combining systems that are themselves
    combinations does what combining all their parts in one list does, and
    combining a single system does what that system does. *)
Theorem combineSystems_flattens
  (groups : list (list (@System Payload Resources)))
  (s : @System Payload Resources) app :
  combineSystems (map (@combineSystems Payload Resources) groups) app =
    combineSystems (concat groups) app /\
  combineSystems [s] app = s app.
Proof.
  split; [|reflexivity].
  rewrite !combineSystems_fold. revert app.
  induction groups as [|g groups IH]; intros app; [reflexivity|].
  cbn [map concat fold_left]. rewrite fold_left_app, combineSystems_fold.
  apply IH.
Qed.

(** X22.  After [clear()] the registry is empty, no entity has a component,
    every query returns an empty array without allocating, both lists of
    systems are empty so that [step()] calls nothing, and the counter and the
    running flag are what they were. *)
Theorem clear_empties_all_but_the_counter app
  (sem : SystemRef -> @System Payload Resources) :
  let app' := clear app in
  getEntities app' = [] /\
  (forall e T, getComponent app' e T = None /\ hasComponent app' e T = false) /\
  (forall (t0 : string) ts h, query app' t0 ts h = ([], h)) /\
  systems_now app' = [] /\
  startupSystems_now app' = [] /\
  (forall fuel, 0 < fuel -> step sem fuel app' = Some ([], app')) /\
  nextId app' = nextId app /\
  running app' = running app.
Proof.
  cbv zeta. unfold clear.
  split; [reflexivity|]. split; [intros e T; split; reflexivity|].
  split; [intros t0 ts h; reflexivity|].
  split; [apply systems_now_clearSystems|].
  split; [apply startupSystems_now_clearSystems|].
  split; [|split; reflexivity].
  intros fuel Hfuel. destruct fuel as [|fuel]; [lia|].
  unfold step. cbn [step_from]. now rewrite systems_now_clearSystems.
Qed.

End Composition.

Section ObjectFacts.
Context {V : Type}.
Implicit Types (props o : @Obj V) (name k : string).

Lemma spread_get_absent props :
  forall o k, ~ In k (JsMap.keys props) ->
    JsMap.get k (spread props o) = JsMap.get k o.
Proof.
  unfold spread. induction props as [|[k' v'] props IH]; intros o k Hnin;
    cbn [fold_left]; [reflexivity|].
  rewrite IH by (intros Hin; apply Hnin; now right).
  apply map_get_set_other. intros ->. apply Hnin. now left.
Qed.

Lemma spread_get_present props :
  JsMap.ok props ->
  forall o k v, JsMap.get k props = Some v ->
    JsMap.get k (spread props o) = Some v.
Proof.
  unfold spread, JsMap.ok.
  induction props as [|[k' v'] props IH]; intros Hok o k v Hget;
    [discriminate|].
  cbn [fold_left fst snd]. cbn [JsMap.get] in Hget.
  cbn [JsMap.keys map fst] in Hok. inversion Hok as [|? ? Hnotin Hok']; subst.
  case_same k k'.
  - injection Hget as ->.
    change (fold_left (fun acc kv => JsMap.set (fst kv) (snd kv) acc) props
              (JsMap.set k' v o)) with (spread props (JsMap.set k' v o)).
    rewrite spread_get_absent by assumption.
    apply map_get_set_same.
  - now apply IH.
Qed.

(** X23.  In the object [createComponent(name, props)] makes, and in the one
    [componentMaker(name)(props)] makes, every property of [props] has the
    value it has in [props]; [type] is [name] only when [props] has no
    property called [type], otherwise the value from [props] is what the
    object ends up with. *)
Theorem createComponent_props_override_type name props :
  JsMap.ok props ->
  (forall k v, JsMap.get k props = Some v ->
     JsMap.get k (createComponent name props) = Some v) /\
  (JsMap.get "type"%string props = None ->
     JsMap.get "type"%string (createComponent name props) = Some (inl name)) /\
  (forall k, k <> "type"%string -> JsMap.get k props = None ->
     JsMap.get k (createComponent name props) = None) /\
  componentMaker name props = createComponent name props.
Proof.
  intros Hok. unfold createComponent, componentMaker.
  assert (Habsent : forall k, JsMap.get k props = None ->
                      ~ In k (JsMap.keys props)).
  { intros k Hk Hin. apply map_has_keys in Hin. apply map_has_true in Hin.
    destruct Hin as [v Hv]. congruence. }
  split; [|split; [|split]].
  - intros k v Hget. now apply spread_get_present.
  - intros Hnone. rewrite spread_get_absent by now apply Habsent.
    reflexivity.
  - intros k Hne Hnone. rewrite spread_get_absent by now apply Habsent.
    cbn [JsMap.get]. apply same_false in Hne. now rewrite Hne.
  - reflexivity.
Qed.

End ObjectFacts.

(** * The further properties on the examples *)

Lemma no_component_anywhere {Payload Resources : Type}
  (app : @App Payload Resources) (e : Entity) :
  forallb (fun tm => negb (JsMap.has e (snd tm))) (components app) = true ->
  forall T, hasComponent app e T = false.
Proof.
  intros Hall T. unfold hasComponent.
  destruct (JsMap.get T (components app)) as [m|] eqn:Hm; [|reflexivity].
  apply map_get_In in Hm. rewrite forallb_forall in Hall.
  specialize (Hall _ Hm). now apply negb_true_iff in Hall.
Qed.

Lemma addComponent_then_removeComponent_witness :
  hasComponent world 2%Z "body" = false /\
  removeComponent 2%Z "body" (addComponent 2%Z (comp "body" 9) world) = world.
Proof.
  assert (Hno : hasComponent world 2%Z (type (comp "body" 9)) = false)
    by reflexivity.
  destruct (@addComponent_then_removeComponent Z unit world 2%Z
              (comp "body" 9) Hno) as [_ [Hsame _]].
  split; [exact Hno|].
  exact (Hsame [(0%Z, comp "body" 1); (1%Z, comp "body" 3)] eq_refl).
Defined.

Lemma addEntity_then_removeEntity_witness :
  ~ In (nextId world) (getEntities world) /\
  (forall T, hasComponent world (nextId world) T = false) /\
  getEntities (removeEntity 3%Z (snd (addEntity [comp "shape" 7] world))) =
    [0; 1; 2]%Z /\
  nextId (removeEntity 3%Z (snd (addEntity [comp "shape" 7] world))) = 4%Z.
Proof.
  assert (Hnin : ~ In (nextId world) (getEntities world))
    by (vm_compute; intuition discriminate).
  assert (Hno : forall T, hasComponent world (nextId world) T = false)
    by (apply no_component_anywhere; vm_compute; reflexivity).
  destruct (@addEntity_then_removeEntity Z unit world [comp "shape" 7]
              Hnin Hno) as [Hreg [_ Hnext]].
  split; [exact Hnin|]. split; [exact Hno|].
  split; [exact Hreg | exact Hnext].
Defined.


Lemma query_ignores_unlisted_types_witness :
  ~ In "movement"%string ["shape"%string] /\
  query (addComponent 0%Z (comp "movement" 8) world) "shape" [] [] =
    query world "shape" [] [] /\
  query (removeComponent 1%Z "movement" world) "shape" [] [] =
    query world "shape" [] [].
Proof.
  assert (Hnin : ~ In "movement"%string ["shape"%string])
    by (simpl; intuition discriminate).
  destruct (@query_ignores_unlisted_types Z unit world "shape" [] []
              "movement" Hnin) as [Hadd Hrem].
  split; [exact Hnin|].
  split; [exact (Hadd 0%Z (comp "movement" 8) eq_refl) | exact (Hrem 1%Z)].
Defined.

Lemma two_systems_registry_ok : registry_ok two_systems.
Proof. unfold registry_ok. cbn. lia. Qed.

Lemma addSystem_appends_witness :
  registry_ok two_systems /\
  systems_now (addSystem 7 two_systems) = [0; 1; 7] /\
  startupSystems_now (addSystem 7 two_systems) = [] /\
  startupSystems_now (addStartupSystem 7 two_systems) = [7] /\
  systems_now (addSystem 7 (addSystem 7 two_systems)) = [0; 1; 7; 7].
Proof.
  destruct (@addSystem_appends Z unit two_systems 7 two_systems_registry_ok)
    as [H1 [H2 [H3 [_ H5]]]].
  split; [exact two_systems_registry_ok|].
  split; [exact H1|]. split; [exact H2|]. split; [exact H3 | exact H5].
Defined.

Lemma removeSystem_removes_first_witness :
  registry_ok two_systems /\
  systems_now (removeSystem 1 false two_systems) = [0] /\
  removeSystem 1 true two_systems = two_systems.
Proof.
  destruct (@removeSystem_removes_first Z unit two_systems 1
              two_systems_registry_ok) as [Hper [_ [_ Hst]]].
  split; [exact two_systems_registry_ok|].
  split.
  - exact (proj1 (Hper [0] [] eq_refl
                    (fun H => match H with
                              | or_introl E => O_S 0 E
                              | or_intror F => F
                              end))).
  - apply Hst. vm_compute. tauto.
Defined.



Lemma step_ends_when_system_clears_witness :
  systems_now three_systems = [0; 1; 2] /\
  step clearing 3 three_systems = Some ([0; 1], clearSystems three_systems).
Proof.
  split; [reflexivity|].
  exact (@step_ends_when_system_clears Z unit clearing three_systems
           [0] [2] 1 3 eq_refl
           (fun t Ht a =>
              match Ht with
              | or_introl E => match E in (_ = y) return
                                 (systems_now (clearing y a) = systems_now a)
                               with eq_refl => eq_refl end
              | or_intror F => match F with end
              end)
           (fun a => eq_refl) (le_n 3)).
Defined.

Lemma clearing_others_keep (t : SystemRef) :
  In t ([0] ++ [2]) ->
  forall a : @App Z unit,
    arrays (clearing t a) = arrays a /\
    systems (clearing t a) = systems a /\
    startupSystems (clearing t a) = startupSystems a.
Proof.
  intros [<- | [<- | []]] a; repeat split.
Qed.

Lemma run_goes_on_after_clearSystems_witness :
  startupSystems_now three_startup_systems = [0; 1; 2] /\
  systems_now three_startup_systems = [5] /\
  exists app1 raf,
    run clearing 1 three_startup_systems = Some ([0; 1; 2], app1, raf) /\
    systems_now app1 = [] /\ startupSystems_now app1 = [].
Proof.
  split; [reflexivity|]. split; [reflexivity|].
  exact (@run_goes_on_after_clearSystems Z unit clearing three_startup_systems
           [0] [2] 1 1 eq_refl (fun a => eq_refl) clearing_others_keep
           (le_n 1)).
Defined.

Lemma stopping_keeps_systems (s : SystemRef) (a : @App Z unit) :
  systems_now (stopping s a) = systems_now a.
Proof. unfold stopping. now destruct (Nat.eqb s 0). Qed.

Lemma stop_takes_effect_at_the_next_tick_witness :
  running running_two = true /\
  length (systems_now running_two) < 3 /\
  loop stopping 3 running_two = Some ([0; 1], stop running_two, true) /\
  loop stopping 3 (stop running_two) = Some ([], stop running_two, false).
Proof.
  assert (Hfuel : length (systems_now running_two) < 3) by (cbn; lia).
  destruct (@stop_takes_effect_at_the_next_tick Z unit stopping running_two 3
              eq_refl (fun s _ a => stopping_keeps_systems s a) Hfuel)
    as [Htick Hnext].
  split; [reflexivity|]. split; [exact Hfuel|].
  split; [exact Htick | exact (Hnext eq_refl)].
Defined.

Lemma props_with_type_ok : JsMap.ok props_with_type.
Proof. unfold JsMap.ok. cbn. solve_NoDup. Qed.

Lemma createComponent_props_override_type_witness :
  JsMap.ok props_with_type /\
  JsMap.get "type"%string (createComponent "body" props_with_type) =
    Some (inl "other"%string) /\
  JsMap.get "mass"%string (createComponent "body" props_with_type) =
    Some (inr 5%Z).
Proof.
  destruct (@createComponent_props_override_type Z "body" props_with_type
              props_with_type_ok) as [Hprops _].
  split; [exact props_with_type_ok|].
  split; [exact (Hprops "type"%string _ eq_refl)
         | exact (Hprops "mass"%string _ eq_refl)].
Defined.
